(** * PageRank and random surfer (page_rank.py): a shallow embedding

    The Python module works on a [networkx.DiGraph] and on ordinary
    dictionaries.  Both keep insertion order, and the order matters for the
    solver (it rewrites the score dictionary while it walks over it), so
    dictionaries are association lists here and the graph is its adjacency
    dictionary in node order.  Python exceptions are an explicit result
    type.  Scores are taken in an arithmetic [Num]; the proofs instantiate
    it with the rationals [Qc] and the evaluations also with IEEE binary64
    ([PrimFloat]). *)

From Stdlib Require Import ZArith QArith Qcanon Lia Floats Uint63.
From stdpp Require Import base decidable list sorting gmap sets strings.

Local Open Scope Z_scope.

(** ** Exceptions *)

Inductive exn : Type :=
  | KeyError          (* d[k] on a missing key *)
  | IndexError        (* l[i] out of range *)
  | ValueError        (* random.randint on an empty range *)
  | ZeroDivisionError (* a / 0 *)
  | OverflowError     (* an int too large for a float *)
  | NetworkXError.    (* G.neighbors(n) on a node that is not in G *)

Inductive result (A : Type) : Type :=
  | Ok (a : A)
  | Raise (e : exn).
Arguments Ok {A} a.
Arguments Raise {A} e.

Definition bind {A B} (r : result A) (k : A -> result B) : result B :=
  match r with
  | Ok a => k a
  | Raise e => Raise e
  end.

Notation "x <- r ;; k" := (bind r (fun x => k))
  (at level 100, r at next level, right associativity).

(** A comprehension [[f(a) for a in l]]: stops at the first exception. *)
Fixpoint comprehension {A B} (f : A -> result B) (l : list A) : result (list B) :=
  match l with
  | [] => Ok []
  | a :: l' => b <- f a ;; bs <- comprehension f l' ;; Ok (b :: bs)
  end.

(** ** The graph: networkx.DiGraph *)

Definition node := Z.

(** The successor dictionary [G._succ], in node insertion order. *)
Definition DiGraph := list (node * list node).

(** [G.nodes()] *)
Definition nodes (G : DiGraph) : list node := map fst G.

(** [len(G)] *)
Definition len (G : DiGraph) : Z := Z.of_nat (length G).

Fixpoint succ_lookup (G : DiGraph) (n : node) : option (list node) :=
  match G with
  | [] => None
  | (u, vs) :: G' => if Z.eqb u n then Some vs else succ_lookup G' n
  end.

(** [G.neighbors(n)]: the successors of [n]; networkx raises when [n] is
    not a node. *)
Definition neighbors (G : DiGraph) (n : node) : result (list node) :=
  match succ_lookup G n with
  | Some vs => Ok vs
  | None => Raise NetworkXError
  end.

(** [G.edges()]: for every node in order, its out-edges in order. *)
Definition edges (G : DiGraph) : list (node * node) :=
  flat_map (fun '(u, vs) => map (pair u) vs) G.

(** [nx.reverse(G)]: the same nodes in the same order, every edge (u, v)
    of [G.edges()] added as (v, u). *)
Definition reverse (G : DiGraph) : DiGraph :=
  map (fun '(v, _) =>
         (v, map fst (List.filter (fun e => Z.eqb (snd e) v) (edges G)))) G.

(** What networkx maintains for every DiGraph (the invariant of the data
    model): node keys are unique, a successor dictionary has unique keys,
    and every successor is itself a node. *)
Definition wf_graph (G : DiGraph) : Prop :=
  NoDup (nodes G) /\
  Forall (fun e : node * list node =>
            NoDup (snd e) /\ Forall (fun v => v ∈ nodes G) (snd e)) G.

#[global] Instance wf_graph_dec G : Decision (wf_graph G).
Proof. unfold wf_graph. apply _. Defined.

(** ** find_dangling_nodes *)

Definition find_dangling_nodes (G : DiGraph) : list node :=
  let nondangling_nodes : gset node :=
    fold_left (fun s edge => s ∪ {[ fst edge ]}) (edges G) ∅ in
  filter (fun node => node ∉ nondangling_nodes) (nodes G).

(** ** Dictionaries *)

Section Dict.
Context {V : Type}.

Definition dict := list (node * V).

(** [d[k]] *)
Fixpoint getitem (d : dict) (k : node) : result V :=
  match d with
  | [] => Raise KeyError
  | (k', v) :: d' => if Z.eqb k' k then Ok v else getitem d' k
  end.

(** [d[k] = v]: an existing key keeps its place, a new one goes last. *)
Fixpoint setitem (d : dict) (k : node) (v : V) : dict :=
  match d with
  | [] => [(k, v)]
  | (k', v') :: d' =>
      if Z.eqb k' k then (k', v) :: d' else (k', v') :: setitem d' k v
  end.

(** [d.values()] *)
Definition values (d : dict) : list V := map snd d.

(** [d.keys()] *)
Definition keys (d : dict) : list node := map fst d.
End Dict.
Arguments dict V : clear implicits.

(** ** sorted(items, key=lambda x: x[1], reverse=True)

    Python's sort is stable and only asks [<] of the keys; with
    [reverse=True] equal keys still keep their original order.  [K] is the
    type of the dictionary keys, [V] of the values sorted by.  Where [<]
    orders the values (ints, rationals, floats that are not nan) every
    stable sort returns this list; with a nan among the values Python's
    list depends on the runs of its merge sort, which is not modelled. *)

Section Sorted.
Context {K V : Type} (ltb : V -> V -> bool).

Fixpoint insert_desc (p : K * V) (l : list (K * V)) : list (K * V) :=
  match l with
  | [] => [p]
  | q :: l' => if ltb (snd p) (snd q) then q :: insert_desc p l'
               else p :: q :: l'
  end.

Fixpoint sorted_desc (l : list (K * V)) : list (K * V) :=
  match l with
  | [] => []
  | p :: l' => insert_desc p (sorted_desc l')
  end.

(** [p] may stand before [q] in a descending list. *)
Definition not_below (p q : K * V) : Prop := ltb (snd p) (snd q) = false.
End Sorted.

(** ** Arithmetic of the scores

    Python computes the scores in binary64.  The solver is written once
    over an arithmetic [Num]: [Qc] is the exact arithmetic the properties
    are stated in, [float] is what the interpreter runs. *)

Class Num (R : Type) : Type := {
  of_int : Z -> R;        (* an int operand, converted *)
  nadd : R -> R -> R;
  nsub : R -> R -> R;
  nmul : R -> R -> R;
  ndiv : R -> R -> R;
  nlt : R -> R -> bool }.

#[global] Instance Num_Qc : Num Qc := {
  of_int z := Q2Qc (inject_Z z);
  nadd := Qcplus;
  nsub := Qcminus;
  nmul := Qcmult;
  ndiv := Qcdiv;
  nlt a b := match Qccompare a b with Lt => true | _ => false end }.

#[global] Instance Num_float : Num float := {
  of_int z := if Z.ltb z 0 then PrimFloat.opp (PrimFloat.of_uint63 (Uint63.of_Z (- z)))
              else PrimFloat.of_uint63 (Uint63.of_Z z);
  nadd := PrimFloat.add;
  nsub := PrimFloat.sub;
  nmul := PrimFloat.mul;
  ndiv := PrimFloat.div;
  nlt := PrimFloat.ltb }.

(** [a / d] with an int divisor [d] (every division of the module divides
    by a [len(...)]): true division, ZeroDivisionError on 0. *)
Definition truediv {R} `{Num R} (a : R) (d : Z) : result R :=
  if Z.eqb d 0 then Raise ZeroDivisionError else Ok (ndiv a (of_int d)).

(** ** The random source

    [random] is a global generator; here it is a tape of raw draws that is
    read from the front.  Every value the three functions can return is
    returned for some tape, and no other. *)

Definition rng := nat -> Z.

Definition draw (t : rng) : Z * rng := (t O, fun i => t (S i)).

(** [random.randint(a, b)]: an integer of [a..b]. *)
Definition randint (a b : Z) (t : rng) : result (Z * rng) :=
  if Z.ltb b a then Raise ValueError
  else let (r, t') := draw t in Ok (a + r mod (b - a + 1), t').

(** [random.random()]: k / 2^53 for an integer k of [0..2^53-1]. *)
Definition random {R} `{Num R} (t : rng) : R * rng :=
  let (r, t') := draw t in
  (ndiv (of_int (r mod 2 ^ 53)) (of_int (2 ^ 53)), t').

(** [random.choice(seq)] *)
Definition choice {A} (seq : list A) (t : rng) : result (A * rng) :=
  let (r, t') := draw t in
  match seq !! Z.to_nat (r mod Z.of_nat (length seq)) with
  | Some a => Ok (a, t')
  | None => Raise IndexError
  end.

(** ** random_surfer *)

Section RandomSurfer.
Context {R : Type} `{Num R}.

(** The body of [for _ in range(n)], [k] passes left. *)
Fixpoint surf (k : nat) (G : DiGraph) (m : R) (nc : Z)
    (visited : dict Z) (node : node) (t : rng) : result (dict Z) :=
  match k with
  | O => Ok visited
  | S k' =>
      c <- getitem visited node ;;
      let visited := setitem visited node (c + 1) in
      nb <- neighbors G node ;;
      match nb with
      | [] =>
          nt <- randint 0 nc t ;;
          surf k' G m nc visited (fst nt) (snd nt)
      | _ :: _ =>
          let (u, t) := random t in
          if nlt u m then
            nt <- randint 0 nc t ;;
            surf k' G m nc visited (fst nt) (snd nt)
          else
            nt <- choice nb t ;;
            surf k' G m nc visited (fst nt) (snd nt)
      end
  end.

Definition random_surfer (G : DiGraph) (n : Z) (m : R) (t : rng)
    : result (dict Z) :=
  let visited := map (fun node => (node, 0)) (nodes G) in
  let nc := len G - 1 in
  nt <- randint 0 nc t ;;
  visited <- surf (Z.to_nat n) G m nc visited (fst nt) (snd nt) ;;
  Ok (sorted_desc Z.ltb visited).
End RandomSurfer.

(** ** page_rank *)

Section PageRank.
Context {R : Type} `{Num R}.

(** [sum(x[node]/size for node in dangling_nodes)], from [acc]. *)
Fixpoint sum_dangling (x : dict R) (size : Z) (dangling_nodes : list node)
    (acc : R) : result R :=
  match dangling_nodes with
  | [] => Ok acc
  | node :: rest =>
      xn <- getitem x node ;;
      q <- truediv xn size ;;
      sum_dangling x size rest (nadd acc q)
  end.

(** [[1/len([i for i in G.neighbors(backlink)]) for backlink in backlinks]] *)
Definition backlink_scores (G : DiGraph) (backlinks : list node)
    : result (list R) :=
  comprehension
    (fun backlink => nb <- neighbors G backlink ;;
                     truediv (of_int 1) (Z.of_nat (length nb)))
    backlinks.

(** [for i, backlink in enumerate(backlinks): A += scores[i] * x[backlink]],
    from index [i] and accumulator [A]. *)
Fixpoint accumulate (x : dict R) (scores : list R) (backlinks : list node)
    (i : nat) (A : R) : result R :=
  match backlinks with
  | [] => Ok A
  | backlink :: rest =>
      match scores !! i with
      | None => Raise IndexError
      | Some s =>
          xb <- getitem x backlink ;;
          accumulate x scores rest (S i) (nadd A (nmul s xb))
      end
  end.

(** The body of [for node, score in x.items()]: it stores the new score
    into [x] itself. *)
Definition update_node (G G_reverse : DiGraph) (m D S_ : R)
    (x : dict R) (node : node) : result (dict R) :=
  backlinks <- neighbors G_reverse node ;;
  scores <- backlink_scores G backlinks ;;
  A <- accumulate x scores backlinks 0 (of_int 0) ;;
  let A := nmul (nsub (of_int 1) m) A in
  Ok (setitem x node (nadd (nadd A D) S_)).

(** The loop over [x.items()]; the keys of [x] do not change under it. *)
Fixpoint update_pass (G G_reverse : DiGraph) (m D S_ : R)
    (todo : list node) (x : dict R) : result (dict R) :=
  match todo with
  | [] => Ok x
  | node :: rest =>
      x' <- update_node G G_reverse m D S_ x node ;;
      update_pass G G_reverse m D S_ rest x'
  end.

(** One pass of [for _ in range(n)]. *)
Definition iteration (G G_reverse : DiGraph) (dangling_nodes : list node)
    (size : Z) (m S_ : R) (x : dict R) : result (dict R) :=
  s <- sum_dangling x size dangling_nodes (of_int 0) ;;
  let D := nmul (nsub (of_int 1) m) s in
  update_pass G G_reverse m D S_ (keys x) x.

Fixpoint iterate (k : nat) (G G_reverse : DiGraph)
    (dangling_nodes : list node) (size : Z) (m S_ : R) (x : dict R)
    : result (dict R) :=
  match k with
  | O => Ok x
  | S k' =>
      x' <- iteration G G_reverse dangling_nodes size m S_ x ;;
      iterate k' G G_reverse dangling_nodes size m S_ x'
  end.

(** The starting vector [x_0] that line 211 builds on a graph with at
    least one node. *)
Definition x_0 (G : DiGraph) : dict R :=
  map (fun n => (n, ndiv (of_int 1) (of_int (len G)))) (nodes G).

(** [x] after [n] passes, before it is sorted. *)
Definition page_rank_scores (G : DiGraph) (m : R) (n : Z)
    : result (dict R) :=
  let size := len G in
  let G_reverse := reverse G in
  let dangling_nodes := find_dangling_nodes G in
  x <- comprehension
         (fun node => q <- truediv (of_int 1) size ;; Ok (node, q))
         (nodes G) ;;
  S_ <- truediv (nmul m (of_int 1)) size ;;
  iterate (Z.to_nat n) G G_reverse dangling_nodes size m S_ x.

Definition page_rank (G : DiGraph) (m : R) (n : Z) : result (dict R) :=
  x <- page_rank_scores G m n ;;
  Ok (sorted_desc nlt x).
End PageRank.

(** ** The double-buffered solver of the specification

    The same arithmetic as [page_rank], but a pass reads the scores of the
    previous pass ([x]) and writes into a second dictionary ([x_new]);
    [x <- x_new] when the pass is over. *)

Section PageRankReference.
Context {R : Type} `{Num R}.

Definition update_node_ref (G G_reverse : DiGraph) (m D S_ : R)
    (x x_new : dict R) (node : node) : result (dict R) :=
  backlinks <- neighbors G_reverse node ;;
  scores <- backlink_scores G backlinks ;;
  A <- accumulate x scores backlinks 0 (of_int 0) ;;
  let A := nmul (nsub (of_int 1) m) A in
  Ok (setitem x_new node (nadd (nadd A D) S_)).

Fixpoint update_pass_ref (G G_reverse : DiGraph) (m D S_ : R)
    (todo : list node) (x x_new : dict R) : result (dict R) :=
  match todo with
  | [] => Ok x_new
  | node :: rest =>
      x_new' <- update_node_ref G G_reverse m D S_ x x_new node ;;
      update_pass_ref G G_reverse m D S_ rest x x_new'
  end.

Definition iteration_ref (G G_reverse : DiGraph)
    (dangling_nodes : list node) (size : Z) (m S_ : R) (x : dict R)
    : result (dict R) :=
  s <- sum_dangling x size dangling_nodes (of_int 0) ;;
  let D := nmul (nsub (of_int 1) m) s in
  update_pass_ref G G_reverse m D S_ (keys x) x x.

Fixpoint iterate_ref (k : nat) (G G_reverse : DiGraph)
    (dangling_nodes : list node) (size : Z) (m S_ : R) (x : dict R)
    : result (dict R) :=
  match k with
  | O => Ok x
  | S k' =>
      x' <- iteration_ref G G_reverse dangling_nodes size m S_ x ;;
      iterate_ref k' G G_reverse dangling_nodes size m S_ x'
  end.

Definition page_rank_ref (G : DiGraph) (m : R) (n : Z) : result (dict R) :=
  let size := len G in
  x <- comprehension
         (fun node => q <- truediv (of_int 1) size ;; Ok (node, q))
         (nodes G) ;;
  S_ <- truediv (nmul m (of_int 1)) size ;;
  x <- iterate_ref (Z.to_nat n) G (reverse G) (find_dangling_nodes G)
         size m S_ x ;;
  Ok (sorted_desc nlt x).
End PageRankReference.

(** ** Sums, as [sum(x.values())] computes them *)

Definition sum_counts (l : list Z) : Z := fold_left Z.add l 0.

Definition sum_scores {R} `{Num R} (l : list R) : R :=
  fold_left nadd l (of_int 0).

(** The exact scores of a result, as plain fractions. *)
Definition fractions {K} (r : result (list (K * Qc))) : result (list (K * Q)) :=
  match r with
  | Ok l => Ok (map (fun p => (fst p, this (snd p))) l)
  | Raise e => Raise e
  end.

(** ** One pass of the specification as a formula, in exact arithmetic *)

(** x(u); 0 for a key that [x] does not have. *)
Definition score (x : dict Qc) (u : node) : Qc :=
  match getitem x u with
  | Ok v => v
  | Raise _ => 0%Qc
  end.

(** outdegree(u) *)
Definition outdegree (G : DiGraph) (u : node) : Z :=
  match succ_lookup G u with
  | Some vs => Z.of_nat (length vs)
  | None => 0
  end.

(** The predecessors of [v], in the order of [G.edges()]. *)
Definition backlinks_of (G : DiGraph) (v : node) : list node :=
  map fst (List.filter (fun e => Z.eqb (snd e) v) (edges G)).

(** x(u) / outdegree(u), as the code multiplies it. *)
Definition contribution (G : DiGraph) (x : dict Qc) (u : node) : Qc :=
  (1 / of_int (outdegree G u) * score x u)%Qc.

(** x_new(v) = A(v) + D + S *)
Definition new_score (G : DiGraph) (m D S_ : Qc) (x : dict Qc) (v : node) : Qc :=
  ((1 - m) * sum_scores (map (contribution G x) (backlinks_of G v)) + D + S_)%Qc.

(** D = (1 - m) * sum of x(d) / size over the dangling nodes *)
Definition dangling_mass (G : DiGraph) (m : Qc) (x : dict Qc) : Qc :=
  ((1 - m) * sum_scores (map (fun d => score x d / of_int (len G))
                           (find_dangling_nodes G)))%Qc.

(** x <- x_new *)
Definition next_scores (G : DiGraph) (m : Qc) (x : dict Qc) : dict Qc :=
  map (fun p => (fst p,
                 new_score G m (dangling_mass G m x)
                   (m * 1 / of_int (len G))%Qc x (fst p))) x.

(** ** Graphs used below *)

(** The node identifiers are the indices 0 .. len(G)-1. *)
Definition zero_based (G : DiGraph) : Prop :=
  forall k, 0 <= k < len G -> k ∈ nodes G.

(** 1 -> 2, and 2 is dangling. *)
Definition G_1_2 : DiGraph := [(1, [2]); (2, [])].

(** 1 -> 2 -> 1: no dangling node, identifiers start at 1. *)
Definition G_cycle_1_2 : DiGraph := [(1, [2]); (2, [1])].

(** 0 -> 1 -> 0 *)
Definition G_cycle_0_1 : DiGraph := [(0, [1]); (1, [0])].

(** One node, no edge. *)
Definition G_single (v : node) : DiGraph := [(v, [])].

(** ** Python numbers, for the reports

    The dictionaries handed to [summary] and [write_to_csv] hold ints
    (visit counts) or floats (scores); [sum], [/] and [*] act on both,
    and an int that meets a float is converted as [float(z)] does. *)

Inductive pynum (R : Type) : Type :=
  | PInt (z : Z)
  | PFloat (r : R).
Arguments PInt {R} z.
Arguments PFloat {R} r.

(** [r == 0], the test behind ZeroDivisionError for a float divisor. *)
Class ZeroTest (R : Type) : Type := is_zero : R -> bool.

#[global] Instance ZeroTest_Qc : ZeroTest Qc := fun r => Qeq_bool r 0.

#[global] Instance ZeroTest_float : ZeroTest float :=
  fun r => PrimFloat.eqb r 0%float.

(** Ints are unbounded.  [of_int] converts as Python does below 2^63 in
    absolute value; the two operations that meet larger ints are kept
    apart: [big_float z] is [float(z)], the nearest float (ties to even),
    OverflowError beyond the largest float; [big_truediv a b] is the slow
    path of [a / b] for ints, the exact quotient rounded once,
    OverflowError when it is too large for a float. *)
Class BigInt (R : Type) : Type := {
  big_float : Z -> result R;
  big_truediv : Z -> Z -> result R }.

#[global] Instance BigInt_Qc : BigInt Qc := {
  big_float z := Ok (of_int z);
  big_truediv a b := Ok (of_int a / of_int b)%Qc }.

(** An int as an unrounded binary number. *)
Definition spec_of_int (z : Z) : spec_float :=
  match z with
  | Z0 => S754_zero false
  | Zpos p => S754_finite false p 0
  | Zneg p => S754_finite true p 0
  end.

(** A rounded result as a float; infinity is an overflow. *)
Definition float_of_spec (f : spec_float) : result float :=
  match f with
  | S754_infinity _ => Raise OverflowError
  | _ => Ok (SF2Prim f)
  end.

#[global] Instance BigInt_float : BigInt float := {
  big_float z := float_of_spec (binary_normalize prec emax z 0 false);
  big_truediv a b :=
    float_of_spec (SFdiv prec emax (spec_of_int a) (spec_of_int b)) }.

Section PyNum.
Context {R : Type} `{Num R} `{ZeroTest R} `{BigInt R}.

(** The float that an int operand of a mixed operation is converted to,
    as [float(z)] does. *)
Definition float_of (a : pynum R) : result R :=
  match a with
  | PInt z => if Z.ltb (Z.abs z) (2 ^ 63) then Ok (of_int z) else big_float z
  | PFloat r => Ok r
  end.

(** [a + b]: an int for two ints, else a float. *)
Definition py_add (a b : pynum R) : result (pynum R) :=
  match a, b with
  | PInt x, PInt y => Ok (PInt (x + y))
  | _, _ => fa <- float_of a ;; fb <- float_of b ;; Ok (PFloat (nadd fa fb))
  end.

(** [a * b]: an int for two ints, else a float. *)
Definition py_mul (a b : pynum R) : result (pynum R) :=
  match a, b with
  | PInt x, PInt y => Ok (PInt (x * y))
  | _, _ => fa <- float_of a ;; fb <- float_of b ;; Ok (PFloat (nmul fa fb))
  end.

(** Both operands of [a / b] fit the 53 bits of a float. *)
Definition small_int (z : Z) : bool := Z.leb (Z.abs z) (2 ^ 53).

(** [a / b]: always a float.  For two ints, ZeroDivisionError when [b] is
    0; when both fit 53 bits they are converted exactly and divided (one
    rounding), otherwise the quotient is rounded once by the slow path.
    With a float operand an int is converted first, then
    ZeroDivisionError when [b] is 0.0. *)
Definition py_truediv (a b : pynum R) : result (pynum R) :=
  match a, b with
  | PInt x, PInt y =>
      if Z.eqb y 0 then Raise ZeroDivisionError
      else if small_int x && small_int y then
        Ok (PFloat (ndiv (of_int x) (of_int y)))
      else q <- big_truediv x y ;; Ok (PFloat q)
  | _, _ =>
      fa <- float_of a ;;
      fb <- float_of b ;;
      if is_zero fb then Raise ZeroDivisionError
      else Ok (PFloat (ndiv fa fb))
  end.

(** [sum(l)]: from 0, one [+] per item. *)
Fixpoint py_sum_from (l : list (pynum R)) (acc : pynum R)
    : result (pynum R) :=
  match l with
  | [] => Ok acc
  | v :: l' => acc' <- py_add acc v ;; py_sum_from l' acc'
  end.

Definition py_sum (l : list (pynum R)) : result (pynum R) :=
  py_sum_from l (PInt 0).
End PyNum.

(** The dictionary of [random_surfer] and of [page_rank] as Python values. *)
Definition counts {R} (visited : dict Z) : dict (pynum R) :=
  map (fun p => (fst p, PInt (snd p))) visited.

Definition floats {R} (x : dict R) : dict (pynum R) :=
  map (fun p => (fst p, PFloat (snd p))) x.

(** ** What the reports write

    A printed line or a csv row is kept as the list of its parts, the
    literal text and the values, before they are turned into text.  A
    report leaves a file (its path and rows), printed lines, and possibly
    an exception; the rows and lines written before an exception stay,
    and an exception of [sum(x.values())] comes before the file is opened
    or a line is printed.  [os.mkdir('results')] and its swallowed
    exception are left out. *)

Inductive cell (R : Type) : Type :=
  | CStr (s : string)
  | CNum (a : pynum R).
Arguments CStr {R} s.
Arguments CNum {R} a.

Record outcome (R : Type) : Type := {
  file : option (string * list (list (cell R)));
  printed : list (list (cell R));
  raised : option exn }.
Arguments file {R} o.
Arguments printed {R} o.
Arguments raised {R} o.

Section Reports.
Context {R : Type} `{Num R} `{ZeroTest R} `{BigInt R}.

(** Python's [round(r, ndigits)] is not modelled: it is a parameter. *)
Variable round : pynum R -> Z -> pynum R.

(** The row [[key, x[key], x[key]/total_visits, (x[key]/total_visits)*100]]. *)
Definition surfer_row (x : dict (pynum R)) (total_visits : pynum R)
    (key : node) : result (list (cell R)) :=
  v <- getitem x key ;;
  share <- py_truediv v total_visits ;;
  share' <- py_truediv v total_visits ;;
  percent <- py_mul share' (PInt 100) ;;
  Ok [CNum (PInt key); CNum v; CNum share; CNum percent].

(** The row [[key, x[key], x[key]*100]]. *)
Definition pagerank_row (x : dict (pynum R)) (key : node)
    : result (list (cell R)) :=
  v <- getitem x key ;;
  v' <- getitem x key ;;
  percent <- py_mul v' (PInt 100) ;;
  Ok [CNum (PInt key); CNum v; CNum percent].

(** [for key in x: writer.writerow(row(key))], after the rows [written]. *)
Fixpoint write_rows (row : node -> result (list (cell R)))
    (todo : list node) (written : list (list (cell R)))
    : list (list (cell R)) * option exn :=
  match todo with
  | [] => (written, None)
  | key :: rest =>
      match row key with
      | Ok r => write_rows row rest (written ++ [r])
      | Raise e => (written, Some e)
      end
  end.

Definition write_to_csv (x : dict (pynum R)) (filename type : string)
    : outcome R :=
  if String.eqb type "surfer" then
    match py_sum (values x) with
    | Raise e => {| file := None; printed := []; raised := Some e |}
    | Ok total_visits =>
        let (rows, e) :=
          write_rows (surfer_row x total_visits) (keys x)
            [[CStr "Node"; CStr "Number of Visits";
              CStr "Relative Importance Score"; CStr "%"]] in
        {| file := Some ("results/surfer_results_" ++ filename ++ ".csv",
                         rows)%string;
           printed := [];
           raised := e |}
    end
  else if String.eqb type "pagerank" then
    let (rows, e) :=
      write_rows (pagerank_row x) (keys x)
        [[CStr "Node"; CStr "Importance Score"; CStr "%"]] in
    {| file := Some ("results/pagerank_results_" ++ filename ++ ".csv", rows)%string;
       printed := [];
       raised := e |}
  else
    {| file := None;
       printed := [[CStr "Please specify a valid type."]];
       raised := None |}.

(** Two tabs. *)
Definition tabs : string :=
  String (Ascii.ascii_of_nat 9) (String (Ascii.ascii_of_nat 9) EmptyString).

(** The line of [summary] for one key of a surfer dictionary. *)
Definition surfer_line (x : dict (pynum R)) (total_visits : pynum R)
    (key : node) : result (list (cell R)) :=
  v <- getitem x key ;;
  v' <- getitem x key ;;
  share <- py_truediv v' total_visits ;;
  v'' <- getitem x key ;;
  share' <- py_truediv v'' total_visits ;;
  percent <- py_mul share' (PInt 100) ;;
  Ok [CNum (PInt key); CStr tabs; CNum v; CStr tabs; CNum (round share 5);
      CStr " ("; CNum (round percent 3); CStr "%)"].

(** The line of [summary] for one key of a pagerank dictionary. *)
Definition pagerank_line (x : dict (pynum R)) (key : node)
    : result (list (cell R)) :=
  v <- getitem x key ;;
  v' <- getitem x key ;;
  percent <- py_mul v' (PInt 100) ;;
  Ok [CNum (PInt key); CStr tabs; CNum v; CStr " (";
      CNum percent; CStr "%)"].

(** [for i, key in enumerate(x): if i == n: break; print(line(key))],
    from index [i], after the lines [shown]. *)
Fixpoint print_lines (line : node -> result (list (cell R))) (n : Z)
    (todo : list node) (i : nat) (shown : list (list (cell R)))
    : list (list (cell R)) * option exn :=
  match todo with
  | [] => (shown, None)
  | key :: rest =>
      if Z.eqb (Z.of_nat i) n then (shown, None)
      else
        match line key with
        | Ok l => print_lines line n rest (S i) (shown ++ [l])
        | Raise e => (shown, Some e)
        end
  end.

Definition summary (x : dict (pynum R)) (type : string) (n : Z) : outcome R :=
  if String.eqb type "surfer" then
    match py_sum (values x) with
    | Raise e => {| file := None; printed := []; raised := Some e |}
    | Ok total_visits =>
        let (lines, e) :=
          print_lines (surfer_line x total_visits) n (keys x) 0
            [[CStr "SUMMARY: Random Walk ("; CNum total_visits;
              CStr " iterations)"];
             [CStr "---------------------------"];
             [CStr ("Ranked Nodes" ++ String (Ascii.ascii_of_nat 9) "#Visits"
                    ++ tabs ++ "Relative Importance Score")%string]] in
        {| file := None; printed := lines; raised := e |}
    end
  else if String.eqb type "pagerank" then
    let (lines, e) :=
      print_lines (pagerank_line x) n (keys x) 0
        [[CStr "SUMMARY: Pagerank"];
         [CStr "---------------------------"];
         [CStr ("Ranked Nodes" ++ String (Ascii.ascii_of_nat 9)
                  "Importance Score")%string]] in
    {| file := None; printed := lines; raised := e |}
  else
    {| file := None;
       printed := [[CStr "Please specify a valid type."]];
       raised := None |}.
End Reports.

(** Every edge points to its own source or to a node that stands before
    the source in the node order ([seen]: the nodes passed so far). *)
Fixpoint edges_point_back (seen : list node) (G : DiGraph) : bool :=
  match G with
  | [] => true
  | (u, vs) :: G' =>
      forallb (fun w => bool_decide (w ∈ u :: seen)) vs
      && edges_point_back (u :: seen) G'
  end.

(** 1 <- 2 <- 3, and 3 -> 3. *)
Definition G_back : DiGraph := [(1, []); (2, [1]); (3, [2; 3])].

(** * Properties *)

(** ** The result type *)

Lemma bind_Ok {A B} (r : result A) (k : A -> result B) (b : B) :
  bind r k = Ok b <-> exists a, r = Ok a /\ k a = Ok b.
Proof.
  destruct r as [a|e]; simpl; split.
  - intros Hk. exists a. done.
  - intros (a' & [= ->] & Hk). done.
  - done.
  - intros (a' & [=] & _).
Qed.

Ltac inv_bind H :=
  repeat match type of H with
  | bind _ _ = Ok _ =>
      let a := fresh "a" in
      let Ha := fresh "Ha" in
      apply bind_Ok in H as (a & Ha & H)
  end.

(** ** Sorting *)

Section SortedFacts.
Context {K V : Type} (ltb : V -> V -> bool).
Implicit Types (p q : K * V) (l : list (K * V)).

Lemma insert_desc_perm p l : insert_desc ltb p l ≡ₚ p :: l.
Proof.
  induction l as [|q l IH]; simpl; [done|].
  destruct (ltb (snd p) (snd q)); [|done].
  rewrite IH. apply Permutation_swap.
Qed.

Lemma sorted_desc_perm l : sorted_desc ltb l ≡ₚ l.
Proof.
  induction l as [|p l IH]; simpl; [done|].
  by rewrite insert_desc_perm, IH.
Qed.

Lemma sorted_desc_keys l : map fst (sorted_desc ltb l) ≡ₚ map fst l.
Proof. by rewrite sorted_desc_perm. Qed.

Lemma sorted_desc_values l : map snd (sorted_desc ltb l) ≡ₚ map snd l.
Proof. by rewrite sorted_desc_perm. Qed.

(** Stability asks nothing of the list, only that no value is below
    itself. *)
Hypothesis ltb_irrefl : forall a, ltb a a = false.

Lemma insert_desc_filter `{EqDecision V} (s : V) p l :
  filter (fun q => snd q = s) (insert_desc ltb p l)
  = filter (fun q => snd q = s) (p :: l).
Proof.
  induction l as [|q l IH]; simpl; [done|].
  destruct (ltb (snd p) (snd q)) eqn:Hpq; [|done].
  rewrite filter_cons, IH, !filter_cons.
  destruct (decide (snd q = s)) as [Hq|Hq],
           (decide (snd p = s)) as [Hp|Hp]; try done.
  rewrite Hq, Hp, ltb_irrefl in Hpq. done.
Qed.

Lemma sorted_desc_stable `{EqDecision V} (s : V) l :
  filter (fun q => snd q = s) (sorted_desc ltb l)
  = filter (fun q => snd q = s) l.
Proof.
  induction l as [|p l IH]; simpl; [done|].
  by rewrite insert_desc_filter, !filter_cons, IH.
Qed.

(** Order: [<] has to be a strict weak order on the values. *)
Hypothesis ltb_asym : forall a b, ltb a b = true -> ltb b a = false.
Hypothesis ltb_negtrans :
  forall a b c, ltb a b = false -> ltb b c = false -> ltb a c = false.

Lemma insert_desc_sorted p l :
  StronglySorted (not_below ltb) l ->
  StronglySorted (not_below ltb) (insert_desc ltb p l).
Proof.
  induction 1 as [|q l Hl IH Hq]; simpl.
  - repeat constructor.
  - destruct (ltb (snd p) (snd q)) eqn:Hpq.
    + constructor; [done|].
      rewrite insert_desc_perm. constructor; [|done].
      by apply ltb_asym.
    + constructor; [by constructor|].
      constructor; [done|].
      eapply Forall_impl; [exact Hq|].
      intros r Hr. by eapply ltb_negtrans.
Qed.

Lemma sorted_desc_sorted l : StronglySorted (not_below ltb) (sorted_desc ltb l).
Proof.
  induction l as [|p l IH]; simpl; [constructor|].
  by apply insert_desc_sorted.
Qed.
End SortedFacts.

Lemma Qc_nlt_spec (a b : Qc) : nlt a b = true <-> (a < b)%Qc.
Proof.
  change ((a < b)%Qc) with (Qccompare a b = Lt). simpl.
  destruct (Qccompare a b); split; intros; done.
Qed.

Lemma Qc_nlt_false (a b : Qc) : nlt a b = false <-> (b <= a)%Qc.
Proof.
  rewrite <- not_true_iff_false, Qc_nlt_spec. split.
  - apply Qcnot_lt_le.
  - apply Qcle_not_lt.
Qed.

(** ** The graph *)

Lemma succ_lookup_Some_elem G n vs :
  succ_lookup G n = Some vs -> (n, vs) ∈ G.
Proof.
  induction G as [|[u us] G IH]; simpl; [done|].
  destruct (Z.eqb_spec u n) as [->|Hne].
  - intros [= ->]. left.
  - intros Hl. right. by apply IH.
Qed.

Lemma succ_lookup_None G n : succ_lookup G n = None <-> n ∉ nodes G.
Proof.
  induction G as [|[u us] G IH]; simpl.
  - split; [intros _; apply not_elem_of_nil|done].
  - rewrite not_elem_of_cons. destruct (Z.eqb_spec u n) as [->|Hne].
    + split; [done|]. intros [Hn _]. done.
    + rewrite IH. naive_solver.
Qed.

Lemma succ_lookup_nodes G n : n ∈ nodes G <-> is_Some (succ_lookup G n).
Proof.
  destruct (succ_lookup G n) as [vs|] eqn:E.
  - split; [by eexists|]. intros _.
    apply succ_lookup_Some_elem in E.
    apply (list_elem_of_fmap_2 fst) in E. done.
  - apply succ_lookup_None in E. split; [done|]. by intros [? [=]].
Qed.

Lemma elem_succ_lookup G n vs :
  NoDup (nodes G) -> (n, vs) ∈ G -> succ_lookup G n = Some vs.
Proof.
  induction G as [|[u us] G IH]; simpl; intros Hnd Hin.
  - by apply elem_of_nil in Hin.
  - apply NoDup_cons in Hnd as [Hu Hnd].
    apply elem_of_cons in Hin as [[= <- <-]|Hin].
    + by rewrite Z.eqb_refl.
    + destruct (Z.eqb_spec u n) as [->|Hne]; [|by apply IH].
      exfalso. apply Hu. by apply (list_elem_of_fmap_2 fst) in Hin.
Qed.

Lemma neighbors_Ok G n vs : neighbors G n = Ok vs <-> succ_lookup G n = Some vs.
Proof.
  unfold neighbors. destruct (succ_lookup G n); split; congruence.
Qed.

Lemma elem_of_edges G u v :
  (u, v) ∈ edges G <-> exists vs, (u, vs) ∈ G /\ v ∈ vs.
Proof.
  unfold edges. rewrite list_elem_of_In, in_flat_map. split.
  - intros ([u' vs] & Hin & Huv). apply list_elem_of_In in Hin, Huv.
    apply list_elem_of_fmap in Huv as (v' & [= -> ->] & Hv'). eauto.
  - intros (vs & Hin & Hv). exists (u, vs). rewrite <- !list_elem_of_In.
    split; [done|]. by apply list_elem_of_fmap_2.
Qed.

Lemma elem_of_sources G u :
  u ∈ map fst (edges G) <-> exists vs v, (u, vs) ∈ G /\ v ∈ vs.
Proof.
  rewrite list_elem_of_fmap. split.
  - intros ([u' v] & -> & He). apply elem_of_edges in He as (vs & ? & ?).
    by exists vs, v.
  - intros (vs & v & ? & ?). exists (u, v). split; [done|].
    apply elem_of_edges. eauto.
Qed.

(** Every successor list of a well-formed graph stays inside the node set. *)
Lemma wf_graph_succ G u vs v :
  wf_graph G -> succ_lookup G u = Some vs -> v ∈ vs -> v ∈ nodes G.
Proof.
  intros [_ Hall] Hl Hv. apply succ_lookup_Some_elem in Hl.
  rewrite Forall_forall in Hall. destruct (Hall _ Hl) as [_ Hsub].
  rewrite Forall_forall in Hsub. by apply Hsub.
Qed.

(** The reverse graph has the nodes of [G], and the neighbours of a node
    in it are the sources of its in-edges. *)
Lemma nodes_reverse G : nodes (reverse G) = nodes G.
Proof.
  unfold nodes, reverse. rewrite map_map. apply map_ext. by intros [v vs].
Qed.

Lemma succ_lookup_map_keys (f : node -> list node) G n :
  succ_lookup (map (fun '(v, _) => (v, f v)) G) n
  = match succ_lookup G n with Some _ => Some (f n) | None => None end.
Proof.
  induction G as [|[u us] G IH]; simpl; [done|].
  by destruct (Z.eqb_spec u n) as [->|Hne].
Qed.

Lemma neighbors_reverse G v backlinks :
  neighbors (reverse G) v = Ok backlinks ->
  v ∈ nodes G /\ forall u, u ∈ backlinks <-> (u, v) ∈ edges G.
Proof.
  rewrite neighbors_Ok. unfold reverse. rewrite succ_lookup_map_keys.
  destruct (succ_lookup G v) as [vs|] eqn:E; [|done].
  intros [= <-]. split.
  - apply succ_lookup_nodes. by eexists.
  - intros u. rewrite list_elem_of_fmap. split.
    + intros ([u' v'] & -> & Hin). apply list_elem_of_In, filter_In in Hin.
      destruct Hin as [Hin Heq]. simpl in *. apply Z.eqb_eq in Heq as ->.
      by apply list_elem_of_In.
    + intros Hin. exists (u, v). split; [done|].
      apply list_elem_of_In, filter_In. split; [by apply list_elem_of_In|].
      apply Z.eqb_refl.
Qed.

Lemma neighbors_reverse_total G v :
  v ∈ nodes G -> exists backlinks, neighbors (reverse G) v = Ok backlinks.
Proof.
  intros Hv. rewrite <- nodes_reverse in Hv.
  apply succ_lookup_nodes in Hv as [bl Hbl]. exists bl. by apply neighbors_Ok.
Qed.

(** A backlink is the source of a real edge: in a well-formed graph its
    neighbour list is found and is not empty. *)
Lemma backlink_outdegree G v backlinks u :
  NoDup (nodes G) ->
  neighbors (reverse G) v = Ok backlinks -> u ∈ backlinks ->
  exists nb, neighbors G u = Ok nb /\ v ∈ nb.
Proof.
  intros Hnd Hrev Hu. apply neighbors_reverse in Hrev as [_ Hbl].
  apply Hbl, elem_of_edges in Hu as (vs & Hin & Hv).
  exists vs. split; [|done]. by apply neighbors_Ok, elem_succ_lookup.
Qed.

(** ** find_dangling_nodes *)

Lemma fold_left_sources (es : list (node * node)) (s : gset node) :
  fold_left (fun s edge => s ∪ {[ fst edge ]}) es s
  = s ∪ list_to_set (map fst es).
Proof.
  revert s. induction es as [|e es IH]; intros s; simpl.
  - set_solver.
  - rewrite IH. set_solver.
Qed.

Lemma find_dangling_nodes_filter G :
  find_dangling_nodes G
  = filter (fun n => n ∉ (list_to_set (map fst (edges G)) : gset node))
      (nodes G).
Proof.
  unfold find_dangling_nodes. rewrite fold_left_sources.
  by rewrite (left_id_L ∅ (∪)).
Qed.

Lemma elem_of_find_dangling_nodes G n :
  n ∈ find_dangling_nodes G <-> n ∈ nodes G /\ n ∉ map fst (edges G).
Proof.
  rewrite find_dangling_nodes_filter, list_elem_of_filter, elem_of_list_to_set.
  tauto.
Qed.

Lemma find_dangling_nodes_subset G n :
  n ∈ find_dangling_nodes G -> n ∈ nodes G.
Proof. rewrite elem_of_find_dangling_nodes. tauto. Qed.

(** C6: [find_dangling_nodes G] is the complement, within the node list,
    of the set of nodes that occur as the source of an edge; a node is in
    it exactly when it is a node of [G] whose neighbour list is empty
    (out-degree 0), and it lists no node twice. *)
Theorem find_dangling_nodes_spec (G : DiGraph) (Hwf : wf_graph G) :
  find_dangling_nodes G
  = filter (fun n => n ∉ (list_to_set (map fst (edges G)) : gset node))
      (nodes G)
  /\ (forall n, n ∈ find_dangling_nodes G
                <-> n ∈ nodes G /\ neighbors G n = Ok [])
  /\ NoDup (find_dangling_nodes G).
Proof.
  split; [apply find_dangling_nodes_filter|]. split.
  - intros n. rewrite elem_of_find_dangling_nodes, elem_of_sources.
    destruct Hwf as [Hnd _]. split.
    + intros [Hn Hsrc]. split; [done|].
      apply succ_lookup_nodes in Hn as [vs Hvs]. apply neighbors_Ok.
      destruct vs as [|v vs]; [done|]. exfalso. apply Hsrc.
      exists (v :: vs), v. split; [by apply succ_lookup_Some_elem|left].
    + intros [Hn Hnb]. split; [done|]. intros (vs & v & Hin & Hv).
      apply neighbors_Ok in Hnb. apply elem_succ_lookup in Hin; [|done].
      rewrite Hnb in Hin. injection Hin as <-. by apply elem_of_nil in Hv.
  - rewrite find_dangling_nodes_filter. apply NoDup_filter, Hwf.
Qed.

Lemma find_dangling_nodes_spec_witness :
  wf_graph G_1_2 /\ find_dangling_nodes G_1_2 = [2].
Proof.
  assert (Hwf : wf_graph G_1_2) by (apply (bool_decide_unpack _); vm_compute; exact I).
  split; [exact Hwf|].
  destruct (find_dangling_nodes_spec G_1_2 Hwf) as [Heq _].
  rewrite Heq. vm_compute. reflexivity.
Defined.

(** ** Dictionaries *)

Section DictFacts.
Context {V : Type}.
Implicit Types (d : dict V) (k : node) (v : V).

Lemma getitem_Ok_keys d k v : getitem d k = Ok v -> k ∈ keys d.
Proof.
  induction d as [|[k' v'] d IH]; simpl; [done|].
  destruct (Z.eqb_spec k' k) as [->|Hne].
  - intros _. left.
  - intros Hg. right. by apply IH.
Qed.

Lemma getitem_total d k : k ∈ keys d -> exists v, getitem d k = Ok v.
Proof.
  induction d as [|[k' v'] d IH]; simpl; intros Hk.
  - by apply elem_of_nil in Hk.
  - destruct (Z.eqb_spec k' k) as [->|Hne]; [by eexists|].
    apply IH. apply elem_of_cons in Hk as [->|Hk]; done.
Qed.

Lemma keys_setitem d k v : k ∈ keys d -> keys (setitem d k v) = keys d.
Proof.
  induction d as [|[k' v'] d IH]; simpl; intros Hk.
  - by apply elem_of_nil in Hk.
  - destruct (Z.eqb_spec k' k) as [->|Hne]; [done|]. simpl. f_equal.
    apply IH. apply elem_of_cons in Hk as [->|Hk]; done.
Qed.

Lemma getitem_setitem_eq d k v : k ∈ keys d -> getitem (setitem d k v) k = Ok v.
Proof.
  induction d as [|[k' v'] d IH]; simpl; intros Hk.
  - by apply elem_of_nil in Hk.
  - destruct (Z.eqb_spec k' k) as [->|Hne]; simpl.
    + by rewrite Z.eqb_refl.
    + destruct (Z.eqb_spec k' k) as [->|_]; [done|].
      apply IH. apply elem_of_cons in Hk as [->|Hk]; done.
Qed.

Lemma getitem_setitem_ne d k k' v :
  k <> k' -> getitem (setitem d k v) k' = getitem d k'.
Proof.
  intros Hne. induction d as [|[k0 v0] d IH]; simpl.
  - destruct (Z.eqb_spec k k'); done.
  - destruct (Z.eqb_spec k0 k) as [->|Hk0]; simpl.
    + destruct (Z.eqb_spec k k'); done.
    + by rewrite IH.
Qed.
End DictFacts.

Lemma comprehension_length {A B} (f : A -> result B) l bs :
  comprehension f l = Ok bs -> length bs = length l.
Proof.
  revert bs. induction l as [|a l IH]; simpl; intros bs Hc.
  - by injection Hc as <-.
  - inv_bind Hc. injection Hc as <-. simpl. f_equal. by apply IH.
Qed.

Lemma comprehension_total {A B} (f : A -> result B) l :
  (forall a, a ∈ l -> exists b, f a = Ok b) ->
  exists bs, comprehension f l = Ok bs.
Proof.
  induction l as [|a l IH]; simpl; intros Hf; [by eexists|].
  destruct (Hf a) as [b Hb]; [left|]. rewrite Hb. simpl.
  destruct IH as [bs Hbs]; [intros; apply Hf; by right|].
  rewrite Hbs. simpl. by eexists.
Qed.

(** ** Counting *)

Lemma fold_left_Zadd (l : list Z) (a : Z) :
  fold_left Z.add l a = a + fold_left Z.add l 0.
Proof.
  revert a. induction l as [|b l IH]; intros a; simpl; [lia|].
  rewrite (IH (a + b)), (IH (0 + b)). lia.
Qed.

Lemma sum_counts_cons a l : sum_counts (a :: l) = a + sum_counts l.
Proof. unfold sum_counts. simpl. apply fold_left_Zadd. Qed.

Lemma sum_counts_perm l l' : l ≡ₚ l' -> sum_counts l = sum_counts l'.
Proof.
  induction 1 as [|a l l' _ IH|a b l|l1 l2 l3 _ IH1 _ IH2];
    rewrite ?sum_counts_cons; try lia; congruence.
Qed.

Lemma sum_counts_zero (ns : list node) :
  sum_counts (values (map (fun n => (n, 0)) ns)) = 0.
Proof.
  induction ns as [|n ns IH]; [done|].
  unfold values in *. simpl. rewrite sum_counts_cons, IH. done.
Qed.

Lemma sum_counts_setitem (d : dict Z) k c v :
  getitem d k = Ok c ->
  sum_counts (values (setitem d k v)) = sum_counts (values d) - c + v.
Proof.
  induction d as [|[k' v'] d IH]; simpl; [done|].
  destruct (Z.eqb_spec k' k) as [->|Hne].
  - intros [= ->]. unfold values. simpl. rewrite !sum_counts_cons. lia.
  - intros Hg. unfold values in *. simpl. rewrite !sum_counts_cons.
    rewrite (IH Hg). lia.
Qed.

(** ** page_rank: which dictionary it builds, and when it raises *)

Section PageRankFacts.
Context {R : Type} `{Num R}.
Implicit Types (G : DiGraph) (x : dict R) (m D : R).

Lemma truediv_Ok (a : R) (d : Z) : d <> 0 -> truediv a d = Ok (ndiv a (of_int d)).
Proof. unfold truediv. by destruct (Z.eqb_spec d 0). Qed.

Lemma truediv_zero (a : R) : truediv a 0 = Raise ZeroDivisionError.
Proof. done. Qed.

Lemma init_keys (size : Z) (ns : list node) x :
  comprehension (fun n => q <- truediv (of_int 1) size ;; Ok (n, q)) ns = Ok x ->
  keys x = ns.
Proof.
  revert x. induction ns as [|n ns IH]; simpl; intros x Hc.
  - by injection Hc as <-.
  - inv_bind Hc. injection Hc as <-. inv_bind Ha. injection Ha as <-.
    unfold keys in *. simpl. f_equal. by apply IH.
Qed.

Lemma init_Ok (size : Z) (ns : list node) :
  size <> 0 ->
  comprehension (fun n => q <- truediv (of_int 1) size ;; Ok (n, q)) ns
  = Ok (map (fun n => (n, ndiv (of_int 1) (of_int size))) ns).
Proof.
  intros Hs. rewrite truediv_Ok by done.
  induction ns as [|n ns IH]; simpl in *; [done|]. by rewrite IH.
Qed.

Lemma sum_dangling_total x (size : Z) dn (acc : R) :
  size <> 0 -> (forall d, d ∈ dn -> d ∈ keys x) ->
  exists s, sum_dangling x size dn acc = Ok s.
Proof.
  intros Hs. revert acc. induction dn as [|d dn IH]; simpl; intros acc Hdn.
  - by eexists.
  - destruct (getitem_total x d) as [v Hv]; [apply Hdn; left|].
    rewrite Hv. cbn [bind]. rewrite truediv_Ok by done. cbn [bind].
    apply IH. intros; apply Hdn; by right.
Qed.

Lemma backlink_scores_total G backlinks :
  (forall b, b ∈ backlinks -> exists nb, neighbors G b = Ok nb /\ nb <> []) ->
  exists scores, backlink_scores G backlinks = Ok scores.
Proof.
  intros Hb. apply comprehension_total. intros b Hin.
  destruct (Hb b Hin) as (nb & -> & Hne). cbn [bind].
  rewrite truediv_Ok; [by eexists|].
  destruct nb; [done|]. simpl. lia.
Qed.

Lemma accumulate_total x (scores : list R) backlinks (i : nat) (A : R) :
  (i + length backlinks <= length scores)%nat ->
  (forall b, b ∈ backlinks -> b ∈ keys x) ->
  exists A', accumulate x scores backlinks i A = Ok A'.
Proof.
  revert i A. induction backlinks as [|b bl IH]; simpl; intros i A Hlen Hb.
  - by eexists.
  - destruct (lookup_lt_is_Some_2 scores i) as [s ->]; [lia|].
    destruct (getitem_total x b) as [v ->]; [apply Hb; left|]. simpl.
    apply IH; [lia|]. intros; apply Hb; by right.
Qed.

(** The zero out-degree guard: a backlink whose neighbour list is empty
    stops the comprehension with ZeroDivisionError. *)
Lemma backlink_scores_zero_outdegree G backlinks b :
  b ∈ backlinks -> neighbors G b = Ok [] ->
  (forall b', b' ∈ backlinks -> b' ∈ nodes G) ->
  backlink_scores G backlinks = Raise ZeroDivisionError.
Proof.
  unfold backlink_scores.
  induction backlinks as [|b' bl IH]; simpl; intros Hin Hb Hall.
  - by apply elem_of_nil in Hin.
  - assert (Hb' : b' ∈ nodes G) by (apply Hall; left).
    apply succ_lookup_nodes in Hb' as [nb Hnb].
    apply neighbors_Ok in Hnb. rewrite Hnb. cbn [bind].
    destruct nb as [|v nb]; [done|].
    rewrite truediv_Ok by (simpl; lia). cbn [bind].
    apply elem_of_cons in Hin as [->|Hin]; [congruence|].
    rewrite IH; [done..|]. intros; apply Hall; by right.
Qed.

(** A pass never changes the keys of [x]. *)
Lemma update_node_keys G G_reverse m D S_ x node x' :
  node ∈ keys x ->
  update_node G G_reverse m D S_ x node = Ok x' -> keys x' = keys x.
Proof.
  intros Hn Hu. unfold update_node in Hu. inv_bind Hu.
  injection Hu as <-. by apply keys_setitem.
Qed.

Lemma update_pass_keys G G_reverse m D S_ todo x x' :
  (forall n, n ∈ todo -> n ∈ keys x) ->
  update_pass G G_reverse m D S_ todo x = Ok x' -> keys x' = keys x.
Proof.
  revert x. induction todo as [|n todo IH]; simpl; intros x Hsub Hp.
  - by injection Hp as <-.
  - inv_bind Hp. rename a into x1.
    assert (Hk : keys x1 = keys x)
      by (eapply update_node_keys; [apply Hsub; left|done]).
    rewrite <- Hk. apply IH; [|done].
    intros n' Hn'. rewrite Hk. apply Hsub. by right.
Qed.

Lemma iteration_keys G G_reverse dn size m S_ x x' :
  iteration G G_reverse dn size m S_ x = Ok x' -> keys x' = keys x.
Proof.
  unfold iteration. intros Hi. inv_bind Hi.
  by eapply update_pass_keys; [|done].
Qed.

Lemma iterate_keys k G G_reverse dn size m S_ x x' :
  iterate k G G_reverse dn size m S_ x = Ok x' -> keys x' = keys x.
Proof.
  revert x. induction k as [|k IH]; simpl; intros x Hi.
  - by injection Hi as <-.
  - inv_bind Hi. rewrite (IH _ Hi). by eapply iteration_keys.
Qed.

Lemma page_rank_scores_keys G m n x :
  page_rank_scores G m n = Ok x -> keys x = nodes G.
Proof.
  unfold page_rank_scores. intros Hp. inv_bind Hp.
  rewrite (iterate_keys _ _ _ _ _ _ _ _ _ Hp). by eapply init_keys.
Qed.

(** On a well-formed graph no step of a pass raises. *)
Lemma update_node_total G m D S_ x node :
  NoDup (nodes G) -> keys x = nodes G -> node ∈ nodes G ->
  exists x', update_node G (reverse G) m D S_ x node = Ok x'.
Proof.
  intros Hnd Hk Hn. unfold update_node.
  destruct (neighbors_reverse_total G node Hn) as [bl Hbl]. rewrite Hbl. simpl.
  destruct (backlink_scores_total G bl) as [sc Hsc].
  { intros b Hb. destruct (backlink_outdegree G node bl b) as (nb & ? & ?);
      [done..|]. exists nb. split; [done|]. by intros ->; set_solver. }
  rewrite Hsc. simpl.
  destruct (accumulate_total x sc bl 0 (of_int 0)) as [A HA].
  - apply comprehension_length in Hsc. simpl. lia.
  - intros b Hb. rewrite Hk.
    apply neighbors_reverse in Hbl as [_ Hbl]. apply Hbl in Hb.
    apply elem_of_edges in Hb as (vs & Hin & _).
    by apply (list_elem_of_fmap_2 fst) in Hin.
  - rewrite HA. simpl. by eexists.
Qed.

Lemma update_pass_total G m D S_ todo x :
  NoDup (nodes G) -> keys x = nodes G ->
  (forall n, n ∈ todo -> n ∈ nodes G) ->
  exists x', update_pass G (reverse G) m D S_ todo x = Ok x'.
Proof.
  intros Hnd. revert x. induction todo as [|n todo IH]; simpl; intros x Hk Hsub.
  - by eexists.
  - destruct (update_node_total G m D S_ x n) as [x1 Hx1];
      [done|done|apply Hsub; left|].
    rewrite Hx1. simpl. apply IH.
    + rewrite <- Hk. eapply update_node_keys; [|done].
      rewrite Hk. apply Hsub. left.
    + intros; apply Hsub; by right.
Qed.

Lemma iteration_total G m S_ x :
  NoDup (nodes G) -> G <> [] -> keys x = nodes G ->
  exists x', iteration G (reverse G) (find_dangling_nodes G) (len G) m S_ x = Ok x'.
Proof.
  intros Hnd Hne Hk. unfold iteration.
  destruct (sum_dangling_total x (len G) (find_dangling_nodes G) (of_int 0))
    as [s ->].
  - unfold len. destruct G; [done|]. simpl. lia.
  - intros d Hd. rewrite Hk. by apply find_dangling_nodes_subset.
  - simpl. apply update_pass_total; [done..|]. intros n. by rewrite Hk.
Qed.

Lemma iterate_total k G m S_ x :
  NoDup (nodes G) -> G <> [] -> keys x = nodes G ->
  exists x', iterate k G (reverse G) (find_dangling_nodes G) (len G) m S_ x = Ok x'.
Proof.
  intros Hnd Hne. revert x. induction k as [|k IH]; simpl; intros x Hk.
  - by eexists.
  - destruct (iteration_total G m S_ x) as [x1 Hx1]; [done..|].
    rewrite Hx1. simpl. apply IH. rewrite <- Hk. by eapply iteration_keys.
Qed.

Lemma len_nonzero G : G <> [] -> len G <> 0.
Proof. unfold len. destruct G; [done|]. simpl. lia. Qed.

Lemma page_rank_scores_total G m n :
  NoDup (nodes G) -> G <> [] -> exists x, page_rank_scores G m n = Ok x.
Proof.
  intros Hnd Hne. unfold page_rank_scores.
  rewrite init_Ok, truediv_Ok by by apply len_nonzero. simpl.
  apply iterate_total; [done..|].
  unfold keys. rewrite map_map. apply map_id.
Qed.

Lemma page_rank_total G m n :
  NoDup (nodes G) -> G <> [] -> exists x, page_rank G m n = Ok x.
Proof.
  intros Hnd Hne. unfold page_rank.
  destruct (page_rank_scores_total G m n Hnd Hne) as [x ->]. by eexists.
Qed.

(** With no pass to run the starting vector is returned, sorted. *)
Lemma page_rank_no_pass G m n :
  G <> [] -> n <= 0 -> page_rank G m n = Ok (sorted_desc nlt (x_0 G)).
Proof.
  intros Hne Hn. unfold page_rank, page_rank_scores.
  rewrite init_Ok, truediv_Ok by by apply len_nonzero. simpl.
  by rewrite Z2Nat.nonpos.
Qed.
End PageRankFacts.

(** ** The random source *)

Lemma randint_range a b t r t' : randint a b t = Ok (r, t') -> a <= r <= b.
Proof.
  unfold randint. destruct (Z.ltb_spec b a) as [|Hab]; [done|].
  simpl. intros [= <- _].
  pose proof (Z.mod_pos_bound (t O) (b - a + 1)). lia.
Qed.

Lemma randint_total a b t :
  a <= b -> exists r t', randint a b t = Ok (r, t') /\ a <= r <= b.
Proof.
  intros Hab. destruct (randint a b t) as [[r t']|e] eqn:E.
  - exists r, t'. split; [done|]. by eapply randint_range.
  - unfold randint in E. destruct (Z.ltb_spec b a); [lia|done].
Qed.

Lemma choice_total {A} (seq : list A) t :
  seq <> [] -> exists a t', choice seq t = Ok (a, t') /\ a ∈ seq.
Proof.
  intros Hne. unfold choice. simpl.
  destruct (lookup_lt_is_Some_2 seq
              (Z.to_nat (t O mod Z.of_nat (length seq)))) as [a Ha].
  - destruct seq; [done|].
    pose proof (Z.mod_pos_bound (t O) (Z.of_nat (length (a :: seq)))).
    simpl in *. lia.
  - rewrite Ha. exists a, (fun i => t (S i)). split; [done|].
    by eapply list_elem_of_lookup_2.
Qed.

(** ** random_surfer *)

Section RandomSurferFacts.
Context {R : Type} `{Num R}.
Implicit Types (G : DiGraph) (visited : dict Z) (m : R) (t : rng).

(** Each of the [k] steps adds one to one counter and no key. *)
Lemma surf_keys_sum k G m nc visited node t visited' :
  surf k G m nc visited node t = Ok visited' ->
  keys visited' = keys visited
  /\ sum_counts (values visited') = sum_counts (values visited) + Z.of_nat k.
Proof.
  revert visited node t.
  induction k as [|k IH]; intros visited node t Hs.
  - simpl in Hs. injection Hs as <-. split; [done|]. simpl. lia.
  - cbn [surf] in Hs. inv_bind Hs. rename a into c, a0 into nb.
    assert (Hk : keys (setitem visited node (c + 1)) = keys visited)
      by (eapply keys_setitem, getitem_Ok_keys; done).
    assert (Hsum : sum_counts (values (setitem visited node (c + 1)))
                   = sum_counts (values visited) + 1)
      by (rewrite (sum_counts_setitem _ _ c) by done; lia).
    assert (Hstep : forall nd t0,
               surf k G m nc (setitem visited node (c + 1)) nd t0 = Ok visited' ->
               keys visited' = keys visited
               /\ sum_counts (values visited')
                  = sum_counts (values visited) + Z.of_nat (S k)).
    { intros nd t0 Hs0. apply IH in Hs0 as [-> ->]. split; [done|]. lia. }
    destruct nb as [|v nb].
    + inv_bind Hs. by eapply Hstep.
    + destruct (random t) as [u t1].
      destruct (nlt u m); inv_bind Hs; by eapply Hstep.
Qed.

(** With node identifiers 0 .. len(G)-1 the walk always stands on a node
    and never raises. *)
Lemma surf_total k G m visited node t :
  wf_graph G -> zero_based G -> keys visited = nodes G -> node ∈ nodes G ->
  exists visited', surf k G m (len G - 1) visited node t = Ok visited'.
Proof.
  intros Hwf Hzb. revert visited node t.
  induction k as [|k IH]; intros visited node t Hk Hn; [by eexists|].
  cbn [surf].
  destruct (getitem_total visited node) as [c Hc]; [by rewrite Hk|].
  rewrite Hc. cbn [bind].
  pose proof Hn as Hn'. apply succ_lookup_nodes in Hn' as [nb Hnb].
  rewrite (proj2 (neighbors_Ok G node nb) Hnb). cbn [bind].
  assert (Hk' : keys (setitem visited node (c + 1)) = nodes G)
    by (rewrite keys_setitem; [done|by rewrite Hk]).
  assert (Hlen : 0 <= len G - 1).
  { unfold len. destruct G; [by apply elem_of_nil in Hn|]. simpl. lia. }
  assert (Htele : forall t0, exists visited',
             (nt <- randint 0 (len G - 1) t0 ;;
              surf k G m (len G - 1) (setitem visited node (c + 1))
                (fst nt) (snd nt)) = Ok visited').
  { intros t0. destruct (randint_total 0 (len G - 1) t0 Hlen)
      as (r & t' & -> & Hr). cbn [bind fst snd].
    apply IH; [done|]. apply Hzb. lia. }
  destruct nb as [|v nb]; [apply Htele|].
  destruct (random t) as [u t1]. destruct (nlt u m); [apply Htele|].
  destruct (choice_total (v :: nb) t1) as (w & t' & -> & Hw); [done|].
  cbn [bind fst snd]. apply IH; [done|]. by eapply wf_graph_succ.
Qed.

Lemma random_surfer_total G n m t :
  wf_graph G -> zero_based G -> G <> [] ->
  exists visited, random_surfer G n m t = Ok visited.
Proof.
  intros Hwf Hzb Hne. unfold random_surfer.
  assert (Hlen : 0 <= len G - 1) by (pose proof (len_nonzero G Hne); unfold len in *; lia).
  destruct (randint_total 0 (len G - 1) t Hlen) as (r & t' & -> & Hr).
  cbn [bind fst snd].
  destruct (surf_total (Z.to_nat n) G m
              (map (fun n0 => (n0, 0)) (nodes G)) r t') as [v ->].
  - done.
  - done.
  - unfold keys. rewrite map_map. apply map_id.
  - apply Hzb. lia.
  - by eexists.
Qed.

(** With no step to take the counters are returned as they start. *)
Lemma random_surfer_no_step G n m t :
  G <> [] -> n <= 0 ->
  random_surfer G n m t
  = Ok (sorted_desc Z.ltb (map (fun n0 => (n0, 0)) (nodes G))).
Proof.
  intros Hne Hn. unfold random_surfer.
  assert (Hlen : 0 <= len G - 1) by (pose proof (len_nonzero G Hne); unfold len in *; lia).
  destruct (randint_total 0 (len G - 1) t Hlen) as (r & t' & -> & Hr).
  cbn [bind fst snd]. by rewrite Z2Nat.nonpos.
Qed.

Lemma random_surfer_keys_sum G n m t visited :
  random_surfer G n m t = Ok visited ->
  keys visited ≡ₚ nodes G
  /\ sum_counts (values visited) = Z.of_nat (Z.to_nat n).
Proof.
  unfold random_surfer. intros Hr. inv_bind Hr. injection Hr as <-.
  apply surf_keys_sum in Ha0 as [Hk Hs]. split.
  - unfold keys in *. rewrite sorted_desc_keys, Hk, map_map. by rewrite map_id.
  - unfold values in *. rewrite (sum_counts_perm _ _ (sorted_desc_values _ _)).
    rewrite Hs. pose proof (sum_counts_zero (nodes G)) as Hz.
    unfold values in Hz. rewrite Hz. lia.
Qed.
End RandomSurferFacts.

(** * The claims *)

Lemma StronglySorted_weaken {A} (P Q : A -> A -> Prop) (l : list A) :
  (forall a b, P a b -> Q a b) -> StronglySorted P l -> StronglySorted Q l.
Proof.
  intros HPQ. induction 1 as [|a l _ IH Ha]; constructor; [done|].
  eapply Forall_impl; [exact Ha|]. intros b. apply HPQ.
Qed.

Lemma Qc_nlt_irrefl (a : Qc) : nlt a a = false.
Proof. apply Qc_nlt_false, Qcle_refl. Qed.

Lemma Qc_nlt_asym (a b : Qc) : nlt a b = true -> nlt b a = false.
Proof. rewrite Qc_nlt_spec, Qc_nlt_false. apply Qclt_le_weak. Qed.

Lemma Qc_nlt_negtrans (a b c : Qc) :
  nlt a b = false -> nlt b c = false -> nlt a c = false.
Proof. rewrite !Qc_nlt_false. intros Hba Hcb. by eapply Qcle_trans. Qed.

(** The sort of the items: descending, a reordering, and stable. *)
Lemma sorted_desc_scores {K : Type} (scoremap : list (K * Qc)) :
  StronglySorted (fun p q => (snd q <= snd p)%Qc) (sorted_desc nlt scoremap)
  /\ sorted_desc nlt scoremap ≡ₚ scoremap
  /\ forall s : Qc, filter (fun p => snd p = s) (sorted_desc nlt scoremap)
                    = filter (fun p => snd p = s) scoremap.
Proof.
  split; [|split].
  - eapply StronglySorted_weaken;
      [|apply sorted_desc_sorted; [apply Qc_nlt_asym|apply Qc_nlt_negtrans]].
    intros p q. unfold not_below. apply Qc_nlt_false.
  - apply sorted_desc_perm.
  - intros s. apply sorted_desc_stable, Qc_nlt_irrefl.
Qed.

Lemma sorted_desc_counts {K : Type} (visits : list (K * Z)) :
  StronglySorted (fun p q => snd q <= snd p) (sorted_desc Z.ltb visits)
  /\ sorted_desc Z.ltb visits ≡ₚ visits
  /\ forall s : Z, filter (fun p => snd p = s) (sorted_desc Z.ltb visits)
                   = filter (fun p => snd p = s) visits.
Proof.
  split; [|split].
  - eapply StronglySorted_weaken; [|apply sorted_desc_sorted].
    + intros p q. unfold not_below. lia.
    + lia.
    + lia.
  - apply sorted_desc_perm.
  - intros s. apply sorted_desc_stable. lia.
Qed.

(** The counters of [random_surfer] before they are sorted. *)
Lemma random_surfer_unsorted {R : Type} `{Num R}
    (G : DiGraph) (n : Z) (m : R) (t : rng) (visited : dict Z) :
  random_surfer G n m t = Ok visited ->
  exists unsorted : dict Z,
    keys unsorted = nodes G /\ visited = sorted_desc Z.ltb unsorted.
Proof.
  unfold random_surfer. intros Hr.
  apply bind_Ok in Hr as (nt & _ & Hr).
  apply bind_Ok in Hr as (unsorted & Hs & Hr). injection Hr as <-.
  exists unsorted. split; [|done].
  apply surf_keys_sum in Hs as [-> _].
  unfold keys. rewrite map_map. apply map_id.
Qed.

(** C9: the mapping that [page_rank] returns (scores in exact
    arithmetic) and the mapping that [random_surfer] returns list their
    entries in descending order of score; they are a reordering of the
    dictionary before the sort, whose keys are the nodes in the order of
    [G.nodes()], and the entries of one and the same score stand in the
    order they have in that dictionary; and the sort ranks
    {a: 0.5, b: 0.5, c: 0.2} as a, b, c. *)
Theorem ranking_descending_stable
    (G : DiGraph) (m : Qc) (n : Z) (t : rng) :
  (forall x : dict Qc, page_rank G m n = Ok x ->
     StronglySorted (fun p q => (snd q <= snd p)%Qc) x
     /\ exists unsorted : dict Qc,
          page_rank_scores G m n = Ok unsorted
          /\ keys unsorted = nodes G
          /\ x ≡ₚ unsorted
          /\ forall s : Qc, filter (fun p => snd p = s) x
                            = filter (fun p => snd p = s) unsorted)
  /\ (forall visited : dict Z, random_surfer G n m t = Ok visited ->
        StronglySorted (fun p q => snd q <= snd p) visited
        /\ exists unsorted : dict Z,
             keys unsorted = nodes G
             /\ visited ≡ₚ unsorted
             /\ forall s : Z, filter (fun p => snd p = s) visited
                              = filter (fun p => snd p = s) unsorted)
  /\ sorted_desc nlt [("a"%string, Q2Qc (1 # 2)); ("b"%string, Q2Qc (1 # 2));
                      ("c"%string, Q2Qc (1 # 5))]
     = [("a"%string, Q2Qc (1 # 2)); ("b"%string, Q2Qc (1 # 2));
        ("c"%string, Q2Qc (1 # 5))].
Proof.
  split; [|split].
  - intros x Hp. unfold page_rank in Hp.
    apply bind_Ok in Hp as (unsorted & Hu & Hp). injection Hp as <-.
    destruct (sorted_desc_scores unsorted) as (Hsorted & Hperm & Hstable).
    split; [exact Hsorted|]. exists unsorted.
    split; [exact Hu|]. split; [by eapply page_rank_scores_keys|]. done.
  - intros visited Hr.
    apply random_surfer_unsorted in Hr as (unsorted & Hk & ->).
    destruct (sorted_desc_counts unsorted) as (Hsorted & Hperm & Hstable).
    split; [exact Hsorted|]. by exists unsorted.
  - reflexivity.
Qed.

(** Two steps on 0 -> 1 -> 0 visit each node once: the tie comes back in
    node order. *)
Lemma ranking_descending_stable_witness :
  StronglySorted (fun p q : node * Z => snd q <= snd p) [(0, 1); (1, 1)]
  /\ exists unsorted : dict Z,
       keys unsorted = nodes G_cycle_0_1
       /\ [(0, 1); (1, 1)] ≡ₚ unsorted
       /\ forall s : Z, filter (fun p => snd p = s) [(0, 1); (1, 1)]
                        = filter (fun p => snd p = s) unsorted.
Proof.
  apply (proj1 (proj2 (ranking_descending_stable G_cycle_0_1 (Q2Qc (1 # 2)) 2
                         (fun i => 2 ^ 52 + Z.of_nat i)))).
  vm_compute. reflexivity.
Defined.

(** The same ranking as the interpreter computes it, in binary64. *)
Lemma ranking_example_binary64 :
  sorted_desc nlt [("c"%string, 0x1.999999999999ap-3%float);
                   ("a"%string, 0.5%float); ("b"%string, 0.5%float)]
  = [("a"%string, 0.5%float); ("b"%string, 0.5%float);
     ("c"%string, 0x1.999999999999ap-3%float)].
Proof. vm_compute. reflexivity. Qed.

Lemma keys_of_results {R : Type} `{Num R}
    (G : DiGraph) (m : R) (n : Z) :
  (forall t visited, random_surfer G n m t = Ok visited ->
     keys visited ≡ₚ nodes G)
  /\ (forall x, page_rank G m n = Ok x -> keys x ≡ₚ nodes G).
Proof.
  split.
  - intros t visited Hr. by apply random_surfer_keys_sum in Hr as [? _].
  - intros x Hp. unfold page_rank in Hp. inv_bind Hp. injection Hp as <-.
    unfold keys. rewrite sorted_desc_keys.
    by rewrite <- (page_rank_scores_keys G m n a).
Qed.

(** C10: when [random_surfer] or [page_rank] returns, the keys of the
    returned dictionary are the nodes of [G], each once, in some order. *)
Theorem result_keys_are_nodes {R : Type} `{Num R}
    (G : DiGraph) (m : R) (n : Z) :
  (forall t visited, random_surfer G n m t = Ok visited ->
     keys visited ≡ₚ nodes G)
  /\ (forall x, page_rank G m n = Ok x -> keys x ≡ₚ nodes G).
Proof.
  split.
  - intros t visited Hr. by apply random_surfer_keys_sum in Hr as [? _].
  - intros x Hp. unfold page_rank in Hp. inv_bind Hp. injection Hp as <-.
    unfold keys. rewrite sorted_desc_keys.
    by rewrite <- (page_rank_scores_keys G m n a).
Qed.

Lemma wf_G_1_2 : wf_graph G_1_2.
Proof. apply (bool_decide_unpack _). vm_compute. exact I. Qed.

Lemma wf_G_cycle_0_1 : wf_graph G_cycle_0_1.
Proof. apply (bool_decide_unpack _). vm_compute. exact I. Qed.

Lemma zero_based_G_cycle_0_1 : zero_based G_cycle_0_1.
Proof.
  intros k Hk. unfold len in Hk. simpl in Hk.
  assert (k = 0 \/ k = 1) as [-> | ->] by lia; set_solver.
Qed.

Lemma result_keys_are_nodes_witness :
  keys [(0, 3); (1, 0)] ≡ₚ nodes G_cycle_0_1.
Proof.
  apply (proj1 (result_keys_are_nodes (R:=float) G_cycle_0_1 0.5%float 3)
           (fun _ => 0)).
  vm_compute. reflexivity.
Defined.

(** C4: the counters that [random_surfer] returns are integers that sum
    to [n]; and on a graph whose node identifiers are 0 .. len(G)-1 it
    does return. *)
Theorem random_surfer_counter_sum {R : Type} `{Num R}
    (G : DiGraph) (n : Z) (m : R) (t : rng) (Hn : 1 <= n) :
  (forall visited : dict Z, random_surfer G n m t = Ok visited ->
     sum_counts (values visited) = n)
  /\ (wf_graph G -> zero_based G -> G <> [] ->
      exists visited : dict Z, random_surfer G n m t = Ok visited).
Proof.
  split.
  - intros visited Hr. apply random_surfer_keys_sum in Hr as [_ ->]. lia.
  - intros. by apply random_surfer_total.
Qed.

Lemma random_surfer_counter_sum_witness :
  1 <= 5 /\ sum_counts (values [(0, 3); (1, 2)]) = 5.
Proof.
  split; [lia|].
  apply (proj1 (random_surfer_counter_sum (R:=float) G_cycle_0_1 5 0.5%float
                  (fun i => 2 ^ 52 + Z.of_nat i) ltac:(lia))).
  vm_compute. reflexivity.
Defined.

(** ** The out-degree of a backlink *)

Section ZeroOutdegree.
Context {R : Type} `{Num R}.

Lemma backlink_scores_raises (G : DiGraph) backlinks u :
  u ∈ backlinks -> neighbors G u = Ok [] ->
  exists e, backlink_scores (R:=R) G backlinks = Raise e.
Proof.
  unfold backlink_scores.
  induction backlinks as [|b bl IH]; simpl; intros Hin Hu.
  - by apply elem_of_nil in Hin.
  - destruct (neighbors G b) as [nb|e] eqn:Hb; cbn [bind]; [|by eexists].
    destruct (truediv (of_int 1) (Z.of_nat (length nb))) as [q|e] eqn:Hq;
      cbn [bind]; [|by eexists].
    apply elem_of_cons in Hin as [->|Hin].
    + rewrite Hu in Hb. injection Hb as <-. done.
    + destruct (IH Hin Hu) as [e ->]. by eexists.
Qed.

Lemma update_pass_raises (G G_reverse : DiGraph) (m D S_ : R)
    todo (x : dict R) v backlinks u :
  v ∈ todo -> neighbors G_reverse v = Ok backlinks ->
  u ∈ backlinks -> neighbors G u = Ok [] ->
  exists e, update_pass G G_reverse m D S_ todo x = Raise e.
Proof.
  intros Hv Hbl Hu Hzero. revert x.
  induction todo as [|n todo IH]; intros x; [by apply elem_of_nil in Hv|].
  simpl.
  destruct (update_node G G_reverse m D S_ x n) as [x1|e] eqn:Hn;
    cbn [bind]; [|by eexists].
  apply elem_of_cons in Hv as [->|Hv]; [|by apply IH].
  unfold update_node in Hn. rewrite Hbl in Hn. cbn [bind] in Hn.
  destruct (backlink_scores_raises G backlinks u Hu Hzero) as [e He].
  rewrite He in Hn. done.
Qed.
End ZeroOutdegree.

(** C8: on a well-formed graph every backlink that the reverse graph
    gives has a neighbour list of length at least 1, so [1/len(...)] never
    divides by zero and [page_rank] returns; and were a backlink of some
    node to have out-degree 0 (for any pair of graph and reverse graph),
    the update of that node raises ZeroDivisionError and a pass raises
    instead of returning scores. *)
Theorem page_rank_backlink_division {R : Type} `{Num R}
    (G : DiGraph) (m : R) (n : Z) (Hwf : wf_graph G) (Hne : G <> []) :
  (forall v backlinks u,
     neighbors (reverse G) v = Ok backlinks -> u ∈ backlinks ->
     exists nb, neighbors G u = Ok nb /\ 1 <= Z.of_nat (length nb))
  /\ (exists x, page_rank G m n = Ok x)
  /\ (forall (G' G_reverse : DiGraph) (D S_ : R) (x : dict R) v backlinks u,
        neighbors G_reverse v = Ok backlinks -> u ∈ backlinks ->
        neighbors G' u = Ok [] ->
        ((forall b, b ∈ backlinks -> b ∈ nodes G') ->
         update_node G' G_reverse m D S_ x v = Raise ZeroDivisionError)
        /\ forall todo, v ∈ todo ->
             exists e, update_pass G' G_reverse m D S_ todo x = Raise e).
Proof.
  destruct Hwf as [Hnd Hsucc]. split; [|split].
  - intros v backlinks u Hbl Hu.
    destruct (backlink_outdegree G v backlinks u Hnd Hbl Hu) as (nb & Hnb & Hv).
    exists nb. split; [done|]. destruct nb; [by apply elem_of_nil in Hv|].
    simpl. lia.
  - by apply page_rank_total.
  - intros G' G_reverse D S_ x v backlinks u Hbl Hu Hzero. split.
    + intros Hall. unfold update_node. rewrite Hbl. cbn [bind].
      by rewrite (backlink_scores_zero_outdegree G' backlinks u).
    + intros todo Hv. by eapply update_pass_raises.
Qed.

Lemma page_rank_backlink_division_witness :
  wf_graph G_1_2 /\ G_1_2 <> [] /\
  exists x, page_rank (R:=float) G_1_2 0.5%float 100 = Ok x.
Proof.
  split; [exact wf_G_1_2|]. split; [done|].
  exact (proj1 (proj2 (page_rank_backlink_division (R:=float) G_1_2 0.5%float
                         100 wf_G_1_2 ltac:(done)))).
Defined.

(** ** Parameters outside their range *)

Lemma Qc_eq_this (a b : Qc) : this a = this b -> a = b.
Proof. intros Hab. apply Qc_is_canon. by rewrite Hab. Qed.

(** C5, as the code has it: m = 2 and n = -1 or n = 1 are accepted, and
    dictionaries are returned. *)
Lemma invalid_parameters_accepted :
  fractions (page_rank G_1_2 (Q2Qc 2) (-1)) = Ok [(1, 1 # 2); (2, 1 # 2)]
  /\ fractions (page_rank G_1_2 (Q2Qc 2) 1) = Ok [(1, 3 # 4); (2, 0 # 1)]
  /\ random_surfer G_cycle_0_1 (-1) (Q2Qc 2) (fun _ => 0) = Ok [(0, 0); (1, 0)]
  /\ random_surfer G_cycle_0_1 2 (Q2Qc 2) (fun _ => 0) = Ok [(0, 2); (1, 0)].
Proof. repeat split; vm_compute; reflexivity. Qed.

(** C5, amended: neither function checks [m] or [n].  On a well-formed
    graph with at least one node [page_rank] returns a dictionary for
    every [m] and [n], and so does [random_surfer] when the node
    identifiers are 0 .. len(G)-1; with [n <= 0] no pass and no step is
    run, [page_rank] returns the starting scores 1/size and
    [random_surfer] the zero counters, both sorted. *)
Theorem parameters_not_validated {R : Type} `{Num R}
    (G : DiGraph) (m : R) (n : Z) (t : rng)
    (Hwf : wf_graph G) (Hne : G <> []) :
  (exists x, page_rank G m n = Ok x)
  /\ (zero_based G -> exists visited, random_surfer G n m t = Ok visited)
  /\ (n <= 0 ->
      page_rank G m n = Ok (sorted_desc nlt (x_0 G))
      /\ random_surfer G n m t
         = Ok (sorted_desc Z.ltb (map (fun n0 => (n0, 0)) (nodes G)))).
Proof.
  split; [|split].
  - apply page_rank_total; [apply Hwf|done].
  - intros Hzb. by apply random_surfer_total.
  - intros Hn. split.
    + by apply page_rank_no_pass.
    + by apply random_surfer_no_step.
Qed.

Lemma parameters_not_validated_witness :
  wf_graph G_cycle_0_1 /\ G_cycle_0_1 <> [] /\
  page_rank (R:=float) G_cycle_0_1 7%float (-3)
  = Ok (sorted_desc nlt (x_0 G_cycle_0_1)).
Proof.
  split; [exact wf_G_cycle_0_1|]. split; [done|].
  apply (parameters_not_validated (R:=float) G_cycle_0_1 7%float (-3)
           (fun _ => 0) wf_G_cycle_0_1 ltac:(done)). lia.
Defined.

(** ** A single node *)

Lemma find_dangling_nodes_single (v : node) :
  find_dangling_nodes (G_single v) = [v].
Proof.
  rewrite find_dangling_nodes_filter. simpl.
  rewrite filter_cons, decide_True by set_solver. done.
Qed.

Lemma iteration_single (v : node) (m : Qc) :
  iteration (G_single v) (reverse (G_single v))
    (find_dangling_nodes (G_single v)) (len (G_single v)) m
    (ndiv (nmul m (of_int 1)) (of_int 1)) [(v, 1%Qc)]
  = Ok [(v, 1%Qc)].
Proof.
  rewrite find_dangling_nodes_single.
  unfold iteration, update_pass, update_node, neighbors. simpl.
  rewrite !Z.eqb_refl. simpl.
  do 3 f_equal.
  change (len (G_single v)) with 1.
  change (Q2Qc (inject_Z 1)) with 1%Qc. change (Q2Qc (inject_Z 0)) with 0%Qc.
  field. discriminate.
Qed.

(** C7: on the graph of one node and no edge the node has score 1 after
    every number of passes, for every m, and that is what [page_rank]
    returns. *)
Theorem page_rank_single_node (v : node) (m : Qc) (n : Z) :
  page_rank_scores (G_single v) m n = Ok [(v, 1%Qc)]
  /\ page_rank (G_single v) m n = Ok [(v, 1%Qc)].
Proof.
  assert (Hs : page_rank_scores (G_single v) m n = Ok [(v, 1%Qc)]).
  { unfold page_rank_scores.
    change (len (G_single v)) with 1.
    rewrite init_Ok, truediv_Ok by done. cbn [bind nodes G_single map fst].
    assert (H1 : ndiv (of_int 1) (of_int 1) = 1%Qc) by by apply Qc_eq_this.
    rewrite H1. generalize (Z.to_nat n) as k.
    induction k as [|k IH]; [done|].
    cbn [iterate].
    change 1 with (len (G_single v)) at 1.
    rewrite iteration_single. cbn [bind]. exact IH. }
  split; [done|]. unfold page_rank. by rewrite Hs.
Qed.

(** In binary64: one node, m = 0.15 (rounded), 100 passes. *)
Lemma single_node_binary64 :
  page_rank (G_single 7) 0x1.3333333333333p-3%float 100 = Ok [(7, 1%float)].
Proof. vm_compute. reflexivity. Qed.

(** ** The pass writes into the dictionary it reads *)

(** C1: on the graph 1 -> 2 with m = 1/2 one pass of [page_rank] gives
    node 2 the score 9/16: its update reads the score 3/8 that the same
    pass has just stored for node 1.  The double-buffered solver reads the
    previous score 1/2 and gives 5/8.  In binary64 the two computations
    are exact and give the same values. *)
Theorem page_rank_reads_updated_scores :
  fractions (page_rank G_1_2 (Q2Qc (1 # 2)) 1) = Ok [(2, 9 # 16); (1, 3 # 8)]
  /\ fractions (page_rank_ref G_1_2 (Q2Qc (1 # 2)) 1)
     = Ok [(2, 5 # 8); (1, 3 # 8)]
  /\ page_rank G_1_2 0.5%float 1 = Ok [(2, 0.5625%float); (1, 0.375%float)]
  /\ page_rank_ref G_1_2 0.5%float 1
     = Ok [(2, 0.625%float); (1, 0.375%float)].
Proof. repeat split; vm_compute; reflexivity. Qed.

(** With m = 0 the scores of 1 -> 2 are 1/4 and 1/2 after every pass. *)
Lemma page_rank_scores_G_1_2 (k : nat) :
  page_rank_scores G_1_2 (Q2Qc 0) (Z.of_nat (S k))
  = Ok [(1, Q2Qc (1 # 4)); (2, Q2Qc (1 # 2))].
Proof.
  unfold page_rank_scores. rewrite Nat2Z.id.
  rewrite init_Ok, truediv_Ok by done. cbn [bind].
  set (G_rev := reverse G_1_2). set (dn := find_dangling_nodes G_1_2).
  set (S_ := ndiv _ _). set (x1 := [(1, Q2Qc (1 # 4)); (2, Q2Qc (1 # 2))]).
  assert (Hfix : iteration G_1_2 G_rev dn (len G_1_2) (Q2Qc 0) S_ x1 = Ok x1).
  { vm_compute. repeat f_equal; by apply Qc_eq_this. }
  assert (Hfirst : iteration G_1_2 G_rev dn (len G_1_2) (Q2Qc 0) S_
                     (map (fun n => (n, ndiv (of_int 1) (of_int (len G_1_2))))
                        (nodes G_1_2)) = Ok x1).
  { vm_compute. repeat f_equal; by apply Qc_eq_this. }
  cbn [iterate]. rewrite Hfirst. cbn [bind].
  induction k as [|k IH]; [done|].
  cbn [iterate]. rewrite Hfix. cbn [bind]. exact IH.
Qed.

(** C2: on the graph 1 -> 2 the scores that [page_rank] returns do not
    sum to 1: with m = 1/2 and one pass they sum to 15/16 (0.9375 in
    binary64, computed exactly). *)
Theorem page_rank_mass_not_conserved :
  (exists x, page_rank G_1_2 (Q2Qc (1 # 2)) 1 = Ok x
             /\ sum_scores (values x) = Q2Qc (15 # 16))
  /\ (exists x, page_rank G_1_2 0.5%float 1 = Ok x
                /\ sum_scores (values x) = 0.9375%float).
Proof.
  split.
  - destruct (page_rank G_1_2 (Q2Qc (1 # 2)) 1) as [x|e] eqn:E;
      [|by vm_compute in E].
    exists x. split; [done|]. apply Qc_eq_this.
    assert (Hx : fractions (Ok x) = Ok [(2, 9 # 16); (1, 3 # 8)])
      by (rewrite <- E; vm_compute; reflexivity).
    clear E. destruct x as [|[k1 v1] [|[k2 v2] [|]]];
      simpl in Hx; try discriminate Hx.
    injection Hx as _ Hv1 _ Hv2.
    unfold sum_scores, values. simpl. by rewrite Hv1, Hv2.
  - eexists. split; [vm_compute; reflexivity|]. vm_compute. reflexivity.
Qed.

(** With m = 0 the mass is 3/4 after every number of passes: it does not
    come back. *)
Lemma page_rank_mass_three_quarters (k : nat) :
  exists x, page_rank G_1_2 (Q2Qc 0) (Z.of_nat (S k)) = Ok x
            /\ sum_scores (values x) = Q2Qc (3 # 4).
Proof.
  unfold page_rank. rewrite page_rank_scores_G_1_2. cbn [bind].
  eexists. split; [done|]. by apply Qc_eq_this.
Qed.

(** ** The start node *)

(** C3: on the graph 1 -> 2 -> 1 the start node is drawn from the
    integers 0 .. len(G)-1 = 0 .. 1 and used as a node: a draw of 0 raises
    KeyError at the first counter, and node 2 is never the start. *)
Theorem random_surfer_start_is_an_index :
  random_surfer G_cycle_1_2 1 (Q2Qc (1 # 2)) (fun _ => 0) = Raise KeyError
  /\ nodes G_cycle_1_2 = [1; 2]
  /\ forall t : rng, exists r t',
       randint 0 (len G_cycle_1_2 - 1) t = Ok (r, t') /\ 0 <= r <= 1.
Proof.
  split; [by vm_compute|]. split; [done|].
  intros t. destruct (randint_total 0 (len G_cycle_1_2 - 1) t) as (r & t' & Hr & Hb).
  - by vm_compute.
  - exists r, t'. split; [done|]. by vm_compute in Hb.
Qed.

(** A teleport draws the same way: from the node 1 of 1 -> 2 -> 1 with
    m = 1 the walk teleports to the integer 0, and the second step raises
    KeyError. *)
Lemma random_surfer_teleport_is_an_index :
  random_surfer G_cycle_1_2 2 (Q2Qc 1) (fun i => match i with O => 1 | _ => 0 end)
  = Raise KeyError.
Proof. by vm_compute. Qed.

(** ** The double-buffered solver conserves the mass

    What C2 asks holds for the solver that reads the previous scores
    only; the loss of mass in [page_rank] comes from its in-place pass. *)

(** Unfold the arithmetic of the [Qc] instance. *)
Ltac qc_norm :=
  cbn [nadd nsub nmul ndiv of_int Num_Qc];
  change (Q2Qc (inject_Z 1)) with 1%Qc;
  change (Q2Qc (inject_Z 0)) with 0%Qc.

Lemma of_int_Qc_add (a b : Z) :
  of_int (a + b) = (of_int a + of_int b)%Qc.
Proof.
  apply Qc_is_canon. simpl. rewrite !Qred_correct, inject_Z_plus. reflexivity.
Qed.

Lemma of_int_Qc_nonzero (d : Z) : d <> 0 -> of_int d <> 0%Qc.
Proof.
  intros Hd Heq. apply (f_equal this) in Heq. simpl in Heq.
  assert (Hq : (inject_Z d == 0)%Q).
  { rewrite <- (Qred_correct (inject_Z d)), Heq. reflexivity. }
  unfold Qeq, inject_Z in Hq. simpl in Hq. lia.
Qed.

Lemma fold_left_Qcplus (l : list Qc) (a : Qc) :
  fold_left Qcplus l a = (a + fold_left Qcplus l 0)%Qc.
Proof.
  revert a. induction l as [|b l IH]; intros a; simpl; [ring|].
  rewrite (IH (a + b)%Qc), (IH (0 + b)%Qc). ring.
Qed.

Lemma sum_scores_nil : sum_scores ([] : list Qc) = 0%Qc.
Proof. done. Qed.

Lemma sum_scores_cons (a : Qc) (l : list Qc) :
  sum_scores (a :: l) = (a + sum_scores l)%Qc.
Proof.
  unfold sum_scores. simpl. change (Q2Qc (inject_Z 0)) with 0%Qc.
  rewrite fold_left_Qcplus. ring.
Qed.

Lemma sum_scores_app (l1 l2 : list Qc) :
  sum_scores (l1 ++ l2) = (sum_scores l1 + sum_scores l2)%Qc.
Proof.
  induction l1 as [|a l1 IH]; simpl.
  - rewrite sum_scores_nil. ring.
  - rewrite !sum_scores_cons, IH. ring.
Qed.

Lemma sum_scores_perm (l l' : list Qc) :
  l ≡ₚ l' -> sum_scores l = sum_scores l'.
Proof.
  induction 1 as [|a l l' _ IH|a b l|l1 l2 l3 _ IH1 _ IH2];
    rewrite ?sum_scores_cons; [done|by rewrite IH|ring|congruence].
Qed.

Section SumsOver.
Context {A : Type}.
Implicit Types (f g : A -> Qc) (l : list A).

Lemma sum_map_ext f g l :
  (forall a, a ∈ l -> f a = g a) ->
  sum_scores (map f l) = sum_scores (map g l).
Proof.
  induction l as [|a l IH]; intros Hfg; simpl; [done|].
  rewrite !sum_scores_cons, (Hfg a), IH; [done| |left].
  intros; apply Hfg; by right.
Qed.

Lemma sum_map_add f g l :
  sum_scores (map (fun a => (f a + g a)%Qc) l)
  = (sum_scores (map f l) + sum_scores (map g l))%Qc.
Proof.
  induction l as [|a l IH]; simpl.
  - rewrite !sum_scores_nil. ring.
  - rewrite !sum_scores_cons, IH. ring.
Qed.

Lemma sum_map_mul (k : Qc) f l :
  sum_scores (map (fun a => (k * f a)%Qc) l) = (k * sum_scores (map f l))%Qc.
Proof.
  induction l as [|a l IH]; simpl.
  - rewrite !sum_scores_nil. ring.
  - rewrite !sum_scores_cons, IH. ring.
Qed.

Lemma sum_map_const (k : Qc) l :
  sum_scores (map (fun _ => k) l) = (of_int (Z.of_nat (length l)) * k)%Qc.
Proof.
  induction l as [|a l IH].
  - cbn [map length]. rewrite sum_scores_nil.
    change (of_int (Z.of_nat 0)) with 0%Qc. ring.
  - cbn [map length]. rewrite sum_scores_cons, IH, Nat2Z.inj_succ.
    unfold Z.succ. rewrite of_int_Qc_add. change (of_int 1) with 1%Qc. ring.
Qed.

Lemma sum_map_zero l : sum_scores (map (fun _ : A => 0%Qc) l) = 0%Qc.
Proof. rewrite sum_map_const. ring. Qed.
End SumsOver.

Lemma score_getitem (x : dict Qc) u v : getitem x u = Ok v -> score x u = v.
Proof. unfold score. by intros ->. Qed.

Lemma outdegree_neighbors G u nb :
  neighbors G u = Ok nb -> outdegree G u = Z.of_nat (length nb).
Proof. rewrite neighbors_Ok. unfold outdegree. by intros ->. Qed.

Lemma neighbors_reverse_backlinks G v :
  v ∈ nodes G -> neighbors (reverse G) v = Ok (backlinks_of G v).
Proof.
  intros Hv. apply neighbors_Ok. unfold reverse.
  rewrite succ_lookup_map_keys.
  apply succ_lookup_nodes in Hv as [vs ->]. done.
Qed.

(** The loop over the backlinks adds up their contributions. *)
Lemma accumulate_contributions G (x : dict Qc) backlinks :
  forall (scores pre : list Qc) (A : Qc),
    backlink_scores G backlinks = Ok scores ->
    (forall u, u ∈ backlinks -> u ∈ keys x) ->
    accumulate x (pre ++ scores) backlinks (length pre) A
    = Ok (A + sum_scores (map (contribution G x) backlinks))%Qc.
Proof.
  unfold backlink_scores.
  induction backlinks as [|u bl IH]; intros scores pre A Hsc Hkeys.
  - simpl. rewrite sum_scores_nil. f_equal. ring.
  - cbn [comprehension] in Hsc. inv_bind Hsc. injection Hsc as <-.
    rename a into s, a0 into scs. inv_bind Ha. rename a into nb.
    cbn [accumulate]. rewrite list_lookup_middle by done.
    destruct (getitem_total x u) as [xu Hxu]; [apply Hkeys; left|].
    rewrite Hxu. cbn [bind].
    replace (pre ++ s :: scs) with ((pre ++ [s]) ++ scs)
      by by rewrite <- app_assoc.
    replace (S (length pre)) with (length (pre ++ [s]))
      by (rewrite length_app; simpl; lia).
    rewrite (IH scs (pre ++ [s])); [|done|intros; apply Hkeys; by right].
    f_equal. cbn [map]. rewrite sum_scores_cons.
    unfold contribution at 2.
    rewrite (score_getitem x u xu Hxu), (outdegree_neighbors G u nb Ha1).
    unfold truediv in Ha.
    destruct (Z.of_nat (length nb) =? 0); [done|]. injection Ha as <-.
    qc_norm. ring.
Qed.

Lemma update_node_ref_formula G m D S_ (x x_new : dict Qc) v :
  NoDup (nodes G) -> keys x = nodes G -> v ∈ nodes G ->
  update_node_ref G (reverse G) m D S_ x x_new v
  = Ok (setitem x_new v (new_score G m D S_ x v)).
Proof.
  intros Hnd Hk Hv. unfold update_node_ref.
  rewrite (neighbors_reverse_backlinks G v Hv). cbn [bind].
  destruct (backlink_scores_total (R:=Qc) G (backlinks_of G v)) as [sc Hsc].
  { intros b Hb.
    destruct (backlink_outdegree G v (backlinks_of G v) b) as (nb & ? & ?);
      [done|by apply neighbors_reverse_backlinks|done|].
    exists nb. split; [done|]. intros ->. by eapply elem_of_nil. }
  rewrite Hsc. cbn [bind].
  rewrite (accumulate_contributions G x (backlinks_of G v) sc [] _ Hsc).
  - cbn [bind]. do 2 f_equal. unfold new_score. qc_norm. ring.
  - intros u Hu. rewrite Hk.
    pose proof (neighbors_reverse_backlinks G v Hv) as Hrev.
    apply neighbors_reverse in Hrev as [_ Hrev]. apply Hrev in Hu.
    apply elem_of_edges in Hu as (vs & Hin & _).
    by apply (list_elem_of_fmap_2 fst) in Hin.
Qed.

Lemma setitem_app_fresh {V} (done_ rest : dict V) k (old v : V) :
  k ∉ keys done_ ->
  setitem (done_ ++ (k, old) :: rest) k v = done_ ++ (k, v) :: rest.
Proof.
  induction done_ as [|[k' v'] d IH]; simpl; intros Hk.
  - by rewrite Z.eqb_refl.
  - apply not_elem_of_cons in Hk as [Hne Hk].
    destruct (Z.eqb_spec k' k) as [->|_]; [done|]. by rewrite IH.
Qed.

(** A pass of the double-buffered solver replaces every score by its
    formula over the previous scores. *)
Lemma update_pass_ref_formula G m D S_ (x : dict Qc) :
  NoDup (nodes G) -> keys x = nodes G ->
  forall rest done_ : dict Qc,
    NoDup (keys (done_ ++ rest)) ->
    (forall v, v ∈ keys rest -> v ∈ nodes G) ->
    update_pass_ref G (reverse G) m D S_ (keys rest) x (done_ ++ rest)
    = Ok (done_ ++ map (fun p => (fst p, new_score G m D S_ x (fst p))) rest).
Proof.
  intros Hnd Hk.
  induction rest as [|[v old] rest IH]; intros done_ Hnodup Hsub; [done|].
  cbn [keys map fst update_pass_ref].
  rewrite update_node_ref_formula; [|done|done|apply Hsub; left].
  cbn [bind]. unfold keys in Hnodup. rewrite map_app in Hnodup.
  apply NoDup_app in Hnodup as (Hd & Hdisj & Hr).
  rewrite setitem_app_fresh.
  2:{ intros Hin. apply (Hdisj v Hin). left. }
  assert (Hre : forall tl : dict Qc,
             done_ ++ (v, new_score G m D S_ x v) :: tl
             = (done_ ++ [(v, new_score G m D S_ x v)]) ++ tl)
    by (intros; by rewrite <- app_assoc).
  rewrite (Hre rest), (Hre (map _ rest)). apply IH.
  - unfold keys. rewrite !map_app. simpl. rewrite <- app_assoc. simpl.
    apply NoDup_app. split; [done|]. split; [done|done].
  - intros u Hu. apply Hsub. by right.
Qed.

Lemma sum_dangling_formula (x : dict Qc) (size : Z) dn (acc : Qc) :
  size <> 0 -> (forall d, d ∈ dn -> d ∈ keys x) ->
  sum_dangling x size dn acc
  = Ok (acc + sum_scores (map (fun d => score x d / of_int size) dn))%Qc.
Proof.
  intros Hs. revert acc. induction dn as [|d dn IH]; intros acc Hdn.
  - simpl. rewrite sum_scores_nil. f_equal. ring.
  - cbn [sum_dangling map].
    destruct (getitem_total x d) as [v Hv]; [apply Hdn; left|].
    rewrite Hv. cbn [bind]. rewrite truediv_Ok by done. cbn [bind].
    rewrite IH by (intros; apply Hdn; by right).
    f_equal. rewrite sum_scores_cons, (score_getitem x d v Hv). qc_norm. ring.
Qed.

Lemma iteration_ref_formula G (m : Qc) (x : dict Qc) :
  NoDup (nodes G) -> G <> [] -> keys x = nodes G ->
  iteration_ref G (reverse G) (find_dangling_nodes G) (len G) m
    (ndiv (nmul m (of_int 1)) (of_int (len G))) x
  = Ok (next_scores G m x).
Proof.
  intros Hnd Hne Hk. unfold iteration_ref.
  rewrite sum_dangling_formula;
    [|by apply len_nonzero
     |intros d Hd; rewrite Hk; by apply find_dangling_nodes_subset].
  cbn [bind].
  rewrite (update_pass_ref_formula G m _ _ x Hnd Hk x []).
  - simpl. f_equal. unfold next_scores. apply map_ext. intros p.
    f_equal. unfold new_score, dangling_mass. qc_norm. ring.
  - simpl. fold (keys x). by rewrite Hk.
  - intros v. by rewrite Hk.
Qed.

(** * Further properties of the code *)

(** ** The empty graph *)

(** X1: on a graph without nodes [page_rank] raises ZeroDivisionError,
    whatever [m] and [n] are: the comprehension for [x] is empty, and
    [S = m * 1/size] divides by [len(G) = 0]. *)
Theorem page_rank_empty_graph {R : Type} `{Num R} (m : R) (n : Z) :
  page_rank [] m n = Raise ZeroDivisionError
  /\ page_rank_scores [] m n = Raise ZeroDivisionError.
Proof. split; reflexivity. Qed.

(** X2: on a graph without nodes [random_surfer] raises ValueError at the
    draw of the start node ([random.randint(0, -1)]), for every [n], [m]
    and state of the random source, also when no step is asked for. *)
Theorem random_surfer_empty_graph {R : Type} `{Num R}
    (n : Z) (m : R) (t : rng) :
  random_surfer [] n m t = Raise ValueError.
Proof. reflexivity. Qed.

(** ** The walk leaves the node set *)

Lemma getitem_missing {V} (d : dict V) k : k ∉ keys d -> getitem d k = Raise KeyError.
Proof.
  induction d as [|[k' v] d IH]; simpl; [done|].
  intros [Hne Hk]%not_elem_of_cons.
  destruct (Z.eqb_spec k' k) as [->|_]; [done|]. by apply IH.
Qed.

(** X3: the drawn start value is used as a node without a check: when it
    is not a node of [G] and at least one step is asked for, the first
    [visited[node] += 1] raises KeyError and no dictionary is returned. *)
Theorem random_surfer_start_not_a_node {R : Type} `{Num R}
    (G : DiGraph) (n : Z) (m : R) (t t' : rng) (r : Z) :
  randint 0 (len G - 1) t = Ok (r, t') -> r ∉ nodes G -> 1 <= n ->
  random_surfer G n m t = Raise KeyError.
Proof.
  intros Hr Hnot Hn. unfold random_surfer. rewrite Hr. cbn [bind fst snd].
  destruct (Z.to_nat n) as [|k] eqn:Hk; [lia|]. cbn [surf].
  rewrite getitem_missing; [done|].
  unfold keys. rewrite map_map. simpl. by rewrite map_id.
Qed.

Lemma random_surfer_start_not_a_node_witness :
  random_surfer G_cycle_1_2 3 0.5%float (fun _ => 0) = Raise KeyError.
Proof.
  apply (random_surfer_start_not_a_node G_cycle_1_2 3 0.5%float
           (fun _ => 0) (fun _ => 0) 0).
  - reflexivity.
  - vm_compute. intros Hin. apply list_elem_of_In in Hin. simpl in Hin.
    destruct Hin as [Hin|[Hin|[]]]; discriminate Hin.
  - lia.
Defined.

(** ** The counters *)

Lemma Forall_setitem {V} (P : V -> Prop) (d : dict V) k v :
  Forall P (values d) -> P v -> Forall P (values (setitem d k v)).
Proof.
  unfold values. induction d as [|[k' v'] d IH]; simpl; intros Hd Hv.
  - by constructor.
  - apply Forall_cons in Hd as [Hv' Hd].
    destruct (Z.eqb_spec k' k); simpl; constructor; auto.
Qed.

Lemma getitem_Forall {V} (P : V -> Prop) (d : dict V) k v :
  Forall P (values d) -> getitem d k = Ok v -> P v.
Proof.
  unfold values. induction d as [|[k' v'] d IH]; simpl; [done|].
  intros [Hv' Hd]%Forall_cons.
  destruct (Z.eqb_spec k' k); [by intros [= <-]|by apply IH].
Qed.

Lemma surf_nonneg {R : Type} `{Num R} k (G : DiGraph) (m : R) nc
    (visited : dict Z) node t visited' :
  Forall (fun c => 0 <= c) (values visited) ->
  surf k G m nc visited node t = Ok visited' ->
  Forall (fun c => 0 <= c) (values visited').
Proof.
  revert visited node t.
  induction k as [|k IH]; intros visited node t Hpos Hs.
  - simpl in Hs. by injection Hs as <-.
  - cbn [surf] in Hs. inv_bind Hs. rename a into c, a0 into nb.
    assert (Hpos' : Forall (fun c => 0 <= c)
                      (values (setitem visited node (c + 1)))).
    { apply Forall_setitem; [done|].
      pose proof (getitem_Forall _ _ _ _ Hpos Ha). simpl in *. lia. }
    destruct nb as [|v nb].
    + inv_bind Hs. by eapply IH.
    + destruct (random t) as [u t1].
      destruct (nlt u m); inv_bind Hs; by eapply IH.
Qed.

Lemma sum_counts_bound (l : list Z) c :
  Forall (fun c => 0 <= c) l -> c ∈ l -> 0 <= c <= sum_counts l.
Proof.
  induction 1 as [|a l Ha Hl IH]; intros Hin.
  - by apply elem_of_nil in Hin.
  - rewrite sum_counts_cons.
    assert (0 <= sum_counts l).
    { clear IH Hin. induction Hl as [|b l Hb Hl IH]; [done|].
      rewrite sum_counts_cons. lia. }
    apply elem_of_cons in Hin as [->|Hin]; [lia|].
    specialize (IH Hin). lia.
Qed.

(** X4: every counter that [random_surfer] returns lies between 0 and the
    number of steps. *)
Theorem random_surfer_counter_bounds {R : Type} `{Num R}
    (G : DiGraph) (n : Z) (m : R) (t : rng) (visited : dict Z) :
  random_surfer G n m t = Ok visited ->
  forall k c, (k, c) ∈ visited -> 0 <= c <= Z.max 0 n.
Proof.
  intros Hr k c Hin.
  pose proof (random_surfer_keys_sum G n m t visited Hr) as [_ Hsum].
  unfold random_surfer in Hr. inv_bind Hr. injection Hr as <-.
  apply surf_nonneg in Ha0.
  - assert (Hc : c ∈ values (sorted_desc Z.ltb a0))
      by (apply (list_elem_of_fmap_2 snd) in Hin; done).
    assert (Hpos : Forall (fun c => 0 <= c) (values (sorted_desc Z.ltb a0))).
    { unfold values in *. by rewrite sorted_desc_values. }
    pose proof (sum_counts_bound _ c Hpos Hc). lia.
  - unfold values. rewrite map_map. simpl.
    apply Forall_forall. intros x [y [-> _]]%list_elem_of_fmap. done.
Qed.

Lemma random_surfer_counter_bounds_witness : 0 <= 3 <= Z.max 0 5.
Proof.
  assert (Hrun : random_surfer G_cycle_0_1 5 0.5%float
                   (fun i => 2 ^ 52 + Z.of_nat i) = Ok [(0, 3); (1, 2)])
    by (vm_compute; reflexivity).
  apply (random_surfer_counter_bounds G_cycle_0_1 5 0.5%float
           (fun i => 2 ^ 52 + Z.of_nat i) [(0, 3); (1, 2)] Hrun 0 3).
  left.
Defined.

(** ** When the in-place pass reads no score of its own pass *)

Lemma getitem_app_fresh {V} (done_ rest : dict V) k :
  k ∉ keys done_ -> getitem (done_ ++ rest) k = getitem rest k.
Proof.
  induction done_ as [|[k' v'] d IH]; simpl; [done|].
  intros [Hne Hk]%not_elem_of_cons.
  destruct (Z.eqb_spec k' k) as [->|_]; [done|]. by apply IH.
Qed.

Lemma NoDup_split_unique {A} (l1 l2 l1' l2' : list A) (a : A) :
  NoDup (l1 ++ a :: l2) -> l1 ++ a :: l2 = l1' ++ a :: l2' ->
  l1 = l1' /\ l2 = l2'.
Proof.
  revert l1'. induction l1 as [|b l1 IH]; intros l1' Hnd Heq.
  - destruct l1' as [|b' l1']; simpl in *.
    + by injection Heq as ->.
    + injection Heq as <- ->. apply NoDup_cons in Hnd as [Hnot _].
      exfalso. apply Hnot. set_solver.
  - destruct l1' as [|b' l1']; simpl in *.
    + injection Heq as -> <-. apply NoDup_cons in Hnd as [Hnot _].
      exfalso. apply Hnot. set_solver.
    + injection Heq as <- Heq. apply NoDup_cons in Hnd as [_ Hnd].
      destruct (IH l1' Hnd Heq) as [-> ->]. done.
Qed.

Lemma edges_point_back_split seen G1 u vs G2 w :
  edges_point_back seen (G1 ++ (u, vs) :: G2) = true -> w ∈ vs ->
  w = u \/ w ∈ nodes G1 \/ w ∈ seen.
Proof.
  revert seen. induction G1 as [|[u1 vs1] G1 IH]; intros seen Hb Hw; simpl in Hb.
  - apply andb_prop in Hb as [Hvs _].
    rewrite forallb_forall in Hvs.
    specialize (Hvs w (proj1 (list_elem_of_In _ _) Hw)).
    apply bool_decide_eq_true in Hvs. set_solver.
  - apply andb_prop in Hb as [_ Hb].
    destruct (IH (u1 :: seen) Hb Hw) as [?|[?|?]]; simpl; set_solver.
Qed.

Section InPlaceAgainstSnapshot.
Context {R : Type} `{Num R}.
Implicit Types (x : dict R) (G : DiGraph).

Lemma accumulate_agree x x' (scores : list R) backlinks i (A : R) :
  (forall u, u ∈ backlinks -> getitem x u = getitem x' u) ->
  accumulate x scores backlinks i A = accumulate x' scores backlinks i A.
Proof.
  revert i A. induction backlinks as [|u bl IH]; intros i A Hag; [done|].
  cbn [accumulate]. destruct (scores !! i) as [s|]; [|done].
  rewrite (Hag u) by left. destruct (getitem x' u) as [xu|e]; [|done].
  cbn [bind]. apply IH. intros; apply Hag; by right.
Qed.

Lemma update_node_as_ref G G_reverse (m D S_ : R) x x_old node :
  (forall backlinks u, neighbors G_reverse node = Ok backlinks ->
     u ∈ backlinks -> getitem x u = getitem x_old u) ->
  update_node G G_reverse m D S_ x node
  = update_node_ref G G_reverse m D S_ x_old x node.
Proof.
  intros Hag. unfold update_node, update_node_ref.
  destruct (neighbors G_reverse node) as [bl|e] eqn:Hbl; [|done]. cbn [bind].
  destruct (backlink_scores G bl) as [sc|e]; [|done]. cbn [bind].
  by rewrite (accumulate_agree x x_old sc bl 0 (of_int 0) (fun u => Hag bl u eq_refl)).
Qed.

Lemma update_node_ref_setitem G G_reverse (m D S_ : R) x x_new node x' :
  update_node_ref G G_reverse m D S_ x x_new node = Ok x' ->
  exists v, x' = setitem x_new node v.
Proof.
  unfold update_node_ref. intros Hu. inv_bind Hu. injection Hu as <-.
  by eexists.
Qed.

(** While every backlink of a node stands at the node or after it, the
    in-place pass and the double-buffered pass store the same scores. *)
Lemma update_pass_as_ref G G_reverse (m D S_ : R) :
  forall rest done_ done_old : dict R,
    keys done_ = keys done_old ->
    NoDup (keys (done_ ++ rest)) ->
    (forall pre v old post backlinks u,
       rest = pre ++ (v, old) :: post ->
       neighbors G_reverse v = Ok backlinks -> u ∈ backlinks ->
       u ∈ keys ((v, old) :: post)) ->
    update_pass G G_reverse m D S_ (keys rest) (done_ ++ rest)
    = update_pass_ref G G_reverse m D S_ (keys rest)
        (done_old ++ rest) (done_ ++ rest).
Proof.
  induction rest as [|[v old] rest IH]; intros done_ done_old Hk Hnd Hback;
    [done|].
  cbn [keys map fst update_pass update_pass_ref].
  assert (Hfresh : forall u, u ∈ keys ((v, old) :: rest) -> u ∉ keys done_).
  { intros u Hu Hin. unfold keys in Hnd. rewrite map_app in Hnd.
    apply NoDup_app in Hnd as (_ & Hdisj & _). by apply (Hdisj u). }
  rewrite (update_node_as_ref G G_reverse m D S_ _ (done_old ++ (v, old) :: rest)).
  2:{ intros bl u Hbl Hu.
      assert (Hin : u ∈ keys ((v, old) :: rest))
        by (eapply (Hback [] v old rest); done).
      rewrite !getitem_app_fresh; [done|rewrite <- Hk|]; by apply Hfresh. }
  destruct (update_node_ref G G_reverse m D S_ (done_old ++ (v, old) :: rest)
              (done_ ++ (v, old) :: rest) v) as [x1|e] eqn:Hx1; [|done].
  cbn [bind].
  apply update_node_ref_setitem in Hx1 as [val ->].
  rewrite setitem_app_fresh by (apply Hfresh; left).
  replace (done_ ++ (v, val) :: rest) with ((done_ ++ [(v, val)]) ++ rest)
    by by rewrite <- app_assoc.
  replace (done_old ++ (v, old) :: rest)
    with ((done_old ++ [(v, old)]) ++ rest) by by rewrite <- app_assoc.
  apply IH.
  - unfold keys in *. rewrite !map_app. simpl. by rewrite Hk.
  - unfold keys in *. rewrite !map_app in *. simpl in *.
    by rewrite <- app_assoc.
  - intros pre v' old' post bl u -> Hbl Hu.
    by eapply (Hback ((v, old) :: pre) v' old' post).
Qed.

Lemma backlinks_not_updated G x :
  NoDup (nodes G) -> edges_point_back [] G = true -> keys x = nodes G ->
  forall pre v old post backlinks u,
    x = pre ++ (v, old) :: post ->
    neighbors (reverse G) v = Ok backlinks -> u ∈ backlinks ->
    u ∈ keys ((v, old) :: post).
Proof.
  intros Hnd Hback Hk pre v old post bl u -> Hbl Hu.
  apply neighbors_reverse in Hbl as [_ Hbl]. apply Hbl in Hu.
  apply elem_of_edges in Hu as (vs & Hin & Hv).
  apply list_elem_of_split in Hin as (G1 & G2 & ->).
  destruct (edges_point_back_split [] G1 u vs G2 v Hback Hv) as [->|[Hv1|Hv1]].
  - left.
  - apply list_elem_of_split in Hv1 as (n1 & n2 & Hn1).
    unfold keys, nodes in *. rewrite !map_app in *. simpl in *.
    rewrite Hn1, <- app_assoc in Hk, Hnd. simpl in Hk, Hnd.
    destruct (NoDup_split_unique _ _ _ _ v Hnd (eq_sym Hk)) as [_ <-].
    right. set_solver.
  - by apply elem_of_nil in Hv1.
Qed.

Lemma iteration_as_ref G dn size (m S_ : R) x :
  NoDup (nodes G) -> edges_point_back [] G = true -> keys x = nodes G ->
  iteration G (reverse G) dn size m S_ x
  = iteration_ref G (reverse G) dn size m S_ x.
Proof.
  intros Hnd Hback Hk. unfold iteration, iteration_ref.
  destruct (sum_dangling x size dn (of_int 0)) as [s|e]; [|done]. cbn [bind].
  apply (update_pass_as_ref G (reverse G) m _ S_ x [] []); [done| |].
  - simpl. fold (keys x). by rewrite Hk.
  - intros pre v old post bl u Hx. by apply (backlinks_not_updated G x Hnd Hback Hk pre).
Qed.

Lemma iteration_ref_keys G G_reverse dn size (m S_ : R) x x' :
  NoDup (keys x) ->
  iteration_ref G G_reverse dn size m S_ x = Ok x' -> keys x' = keys x.
Proof.
  unfold iteration_ref. intros Hnd Hi. inv_bind Hi. clear Ha.
  assert (Hgen : forall todo (x_new x1 : dict R),
             (forall v, v ∈ todo -> v ∈ keys x_new) ->
             update_pass_ref G G_reverse m
               (nmul (nsub (of_int 1) m) a) S_ todo x x_new = Ok x1 ->
             keys x1 = keys x_new).
  { induction todo as [|v todo IH]; intros x_new x1 Hsub Hp.
    - simpl in Hp. by injection Hp as <-.
    - cbn [update_pass_ref] in Hp. inv_bind Hp.
      apply update_node_ref_setitem in Ha as [val ->].
      assert (Hkk : keys (setitem x_new v val) = keys x_new)
        by (apply keys_setitem, Hsub; left).
      rewrite <- Hkk. apply IH; [|done].
      intros u Hu. rewrite Hkk. apply Hsub. by right. }
  by apply (Hgen (keys x) x x').
Qed.

Lemma iterate_as_ref k G (m S_ : R) dn size x :
  NoDup (nodes G) -> edges_point_back [] G = true -> keys x = nodes G ->
  iterate k G (reverse G) dn size m S_ x
  = iterate_ref k G (reverse G) dn size m S_ x.
Proof.
  intros Hnd Hback. revert x. induction k as [|k IH]; intros x Hk; [done|].
  cbn [iterate iterate_ref]. rewrite iteration_as_ref by done.
  destruct (iteration_ref G (reverse G) dn size m S_ x) as [x1|e] eqn:Hx1;
    [|done].
  cbn [bind]. apply IH. rewrite <- Hk.
  eapply iteration_ref_keys; [by rewrite Hk|done].
Qed.
End InPlaceAgainstSnapshot.

(** X7: on a graph in which no edge points forward in the node order
    (every edge goes to its own source or to a node inserted before it),
    no update reads a score of the same pass, and [page_rank] returns what
    the double-buffered solver returns, errors included. *)
Theorem page_rank_as_ref_without_forward_edges {R : Type} `{Num R}
    (G : DiGraph) (m : R) (n : Z) :
  NoDup (nodes G) -> edges_point_back [] G = true ->
  page_rank G m n = page_rank_ref G m n.
Proof.
  intros Hnd Hback. unfold page_rank, page_rank_ref, page_rank_scores.
  destruct (comprehension _ (nodes G)) as [x|e] eqn:Hx; [|done]. cbn [bind].
  destruct (truediv (nmul m (of_int 1)) (len G)) as [S_|e]; [|done].
  cbn [bind]. rewrite iterate_as_ref; [done..|]. by eapply init_keys.
Qed.

Lemma page_rank_as_ref_without_forward_edges_witness :
  page_rank G_back 0.5%float 3 = page_rank_ref G_back 0.5%float 3.
Proof.
  apply (page_rank_as_ref_without_forward_edges G_back 0.5%float 3).
  - apply (bool_decide_unpack _). vm_compute. exact I.
  - vm_compute. reflexivity.
Defined.

(** ** The mass of the scores *)

Lemma score_keys_values (x : dict Qc) :
  NoDup (keys x) -> map (score x) (keys x) = values x.
Proof.
  unfold keys, values, score.
  induction x as [|[k v] x IH]; simpl; intros Hnd; [done|].
  apply NoDup_cons in Hnd as [Hk Hnd]. rewrite Z.eqb_refl. f_equal.
  rewrite <- (IH Hnd). apply map_ext_in. intros k' Hk'.
  destruct (Z.eqb_spec k k') as [->|_]; [|done].
  exfalso. apply Hk. by apply list_elem_of_In.
Qed.

Lemma sum_map_filter {A} (P : A -> bool) (f : A -> Qc) (l : list A) :
  sum_scores (map f (List.filter P l))
  = sum_scores (map (fun a => if P a then f a else 0%Qc) l).
Proof.
  induction l as [|a l IH]; simpl; [done|].
  destruct (P a); simpl; rewrite !sum_scores_cons, ?IH; ring.
Qed.

Lemma sum_map_filter_dec {A} (P : A -> Prop) `{forall a, Decision (P a)}
    (f : A -> Qc) (l : list A) :
  sum_scores (map f (filter P l))
  = sum_scores (map (fun a => if decide (P a) then f a else 0%Qc) l).
Proof.
  induction l as [|a l IH]; simpl; [done|].
  rewrite filter_cons. destruct (decide (P a)); simpl;
    rewrite !sum_scores_cons, ?IH; ring.
Qed.

(** A sum over the one place of a list without duplicates. *)
Lemma sum_map_indicator (ns : list node) (w : node) (c : Qc) :
  NoDup ns -> w ∈ ns ->
  sum_scores (map (fun v => if Z.eqb w v then c else 0%Qc) ns) = c.
Proof.
  induction 1 as [|n ns Hn Hnd IH]; intros Hw.
  - by apply elem_of_nil in Hw.
  - cbn [map]. rewrite sum_scores_cons.
    destruct (Z.eqb_spec w n) as [->|Hne].
    + rewrite (sum_map_ext _ (fun _ => 0%Qc)), sum_map_zero; [ring|].
      intros v Hv. destruct (Z.eqb_spec n v) as [->|_]; done.
    + rewrite IH; [ring|]. apply elem_of_cons in Hw as [?|?]; done.
Qed.

(** Summing, node by node, over the edges that end in the node is summing
    over the edges. *)
Lemma sum_by_target (ns : list node) (es : list (node * node))
    (g : node * node -> Qc) :
  NoDup ns -> (forall e, e ∈ es -> snd e ∈ ns) ->
  sum_scores
    (map (fun v => sum_scores
                     (map g (List.filter (fun e => Z.eqb (snd e) v) es))) ns)
  = sum_scores (map g es).
Proof.
  intros Hnd. induction es as [|e es IH]; intros Hes.
  - simpl. apply sum_map_zero.
  - cbn [map]. rewrite sum_scores_cons, <- IH by (intros; apply Hes; by right).
    rewrite <- (sum_map_indicator ns (snd e) (g e) Hnd) by (apply Hes; left).
    rewrite <- sum_map_add. apply sum_map_ext. intros v _.
    unfold node in *. simpl.
    destruct (Z.eqb (snd e) v); simpl; rewrite ?sum_scores_cons; ring.
Qed.

Lemma sum_flat_map {A B} (f : A -> list B) (g : B -> Qc) (l : list A) :
  sum_scores (map g (flat_map f l))
  = sum_scores (map (fun a => sum_scores (map g (f a))) l).
Proof.
  induction l as [|a l IH]; simpl; [done|].
  by rewrite map_app, sum_scores_app, sum_scores_cons, IH.
Qed.

Lemma outdegree_entry G u vs :
  NoDup (nodes G) -> (u, vs) ∈ G -> outdegree G u = Z.of_nat (length vs).
Proof.
  intros Hnd Hin. unfold outdegree. by rewrite (elem_succ_lookup G u vs).
Qed.

(** What the non-dangling nodes hand on along their edges is their own
    score. *)
Lemma sum_contributions_over_edges G (x : dict Qc) :
  NoDup (nodes G) ->
  sum_scores (map (fun e => contribution G x (fst e)) (edges G))
  = sum_scores (map (fun p : node * list node =>
                       match snd p with
                       | [] => 0%Qc
                       | _ :: _ => score x (fst p)
                       end) G).
Proof.
  intros Hnd. unfold edges. rewrite sum_flat_map. apply sum_map_ext.
  intros [u vs] Hin. rewrite map_map. simpl.
  rewrite sum_map_const. unfold contribution.
  rewrite (outdegree_entry G u vs Hnd Hin).
  destruct vs as [|v vs].
  - change (of_int (Z.of_nat (length (@nil node)))) with 0%Qc. ring.
  - field. apply of_int_Qc_nonzero. simpl. lia.
Qed.

Lemma dangling_entry G u vs :
  NoDup (nodes G) -> (u, vs) ∈ G ->
  u ∉ (list_to_set (map fst (edges G)) : gset node) <-> vs = [].
Proof.
  intros Hnd Hin. rewrite elem_of_list_to_set, elem_of_sources. split.
  - intros Hsrc. destruct vs as [|v vs]; [done|].
    exfalso. apply Hsrc. exists (v :: vs), v. split; [done|left].
  - intros -> (vs' & v & Hin' & Hv).
    apply elem_succ_lookup in Hin, Hin'; [|done..].
    rewrite Hin in Hin'. injection Hin' as <-. by apply elem_of_nil in Hv.
Qed.

(** What the dangling nodes hold. *)
Lemma sum_scores_dangling G (x : dict Qc) :
  NoDup (nodes G) ->
  sum_scores (map (score x) (find_dangling_nodes G))
  = sum_scores (map (fun p : node * list node =>
                       match snd p with
                       | [] => score x (fst p)
                       | _ :: _ => 0%Qc
                       end) G).
Proof.
  intros Hnd. rewrite find_dangling_nodes_filter, sum_map_filter_dec.
  unfold nodes. rewrite map_map. apply sum_map_ext.
  intros [u vs] Hin. simpl.
  destruct (decide (u ∉ (list_to_set (map fst (edges G)) : gset node)))
    as [Hd|Hd].
  - apply (dangling_entry G u vs Hnd Hin) in Hd as ->. done.
  - destruct vs as [|v vs]; [|done].
    exfalso. apply Hd. by apply (dangling_entry G u [] Hnd Hin).
Qed.

(** One double-buffered pass maps the mass [s] to [(1 - m) * s + m]. *)
Lemma next_scores_mass G (m : Qc) (x : dict Qc) :
  wf_graph G -> G <> [] -> keys x = nodes G ->
  sum_scores (values (next_scores G m x))
  = ((1 - m) * sum_scores (values x) + m)%Qc.
Proof.
  intros [Hnd Hsucc] Hne Hk.
  assert (HL : of_int (len G) <> 0%Qc)
    by (apply of_int_Qc_nonzero; by apply len_nonzero).
  unfold next_scores, values. rewrite map_map. cbn [fst snd].
  rewrite <- (map_map fst (fun v => new_score G m (dangling_mass G m x)
                                      (m * 1 / of_int (len G))%Qc x v)).
  fold (keys x). rewrite Hk. unfold new_score.
  rewrite !sum_map_add, sum_map_mul, !sum_map_const.
  unfold backlinks_of.
  rewrite (sum_map_ext _ (fun v => sum_scores
             (map (fun e => contribution G x (fst e))
                (List.filter (fun e => Z.eqb (snd e) v) (edges G))))).
  2:{ intros v _. by rewrite map_map. }
  rewrite sum_by_target, sum_contributions_over_edges; [|done|done|].
  2:{ intros [u v] He. apply elem_of_edges in He as (vs & Hin & Hv).
      rewrite Forall_forall in Hsucc. destruct (Hsucc _ Hin) as [_ Hvs].
      rewrite Forall_forall in Hvs. by apply Hvs. }
  unfold dangling_mass.
  rewrite (sum_map_ext (fun d => (score x d / of_int (len G))%Qc)
             (fun d => (/ of_int (len G) * score x d)%Qc))
    by (intros; unfold Qcdiv; ring).
  rewrite sum_map_mul, sum_scores_dangling by done.
  assert (Hall : sum_scores (map snd x)
            = (sum_scores (map (fun p : node * list node =>
                                  match snd p with
                                  | [] => 0%Qc
                                  | _ :: _ => score x (fst p)
                                  end) G)
               + sum_scores (map (fun p : node * list node =>
                                    match snd p with
                                    | [] => score x (fst p)
                                    | _ :: _ => 0%Qc
                                    end) G))%Qc).
  { rewrite <- sum_map_add. fold (values x).
    rewrite <- score_keys_values by by rewrite Hk.
    rewrite Hk. unfold nodes. rewrite map_map. apply sum_map_ext.
    intros [u [|v vs]] _; simpl; ring. }
  rewrite Hall. unfold nodes. rewrite length_map. fold (len G).
  field. done.
Qed.

Lemma keys_next_scores G (m : Qc) (x : dict Qc) :
  keys (next_scores G m x) = keys x.
Proof. unfold next_scores, keys. by rewrite map_map. Qed.

Lemma x_0_mass G : G <> [] -> sum_scores (values (x_0 (R:=Qc) G)) = 1%Qc.
Proof.
  intros Hne. unfold x_0, values. rewrite map_map. cbn [snd].
  rewrite sum_map_const. unfold nodes. rewrite length_map. fold (len G).
  qc_norm. field. apply of_int_Qc_nonzero. by apply len_nonzero.
Qed.

Lemma iterate_ref_mass k G (m : Qc) (x : dict Qc) :
  wf_graph G -> G <> [] -> keys x = nodes G ->
  sum_scores (values x) = 1%Qc ->
  exists x', iterate_ref k G (reverse G) (find_dangling_nodes G) (len G) m
               (ndiv (nmul m (of_int 1)) (of_int (len G))) x = Ok x'
             /\ sum_scores (values x') = 1%Qc.
Proof.
  intros Hwf Hne. revert x. induction k as [|k IH]; intros x Hk Hmass.
  - by exists x.
  - cbn [iterate_ref].
    rewrite iteration_ref_formula; [|apply Hwf|done|done]. cbn [bind].
    apply IH.
    + by rewrite keys_next_scores.
    + rewrite next_scores_mass, Hmass by done. ring.
Qed.

(** The double-buffered solver keeps the mass 1, for every [m] and [n]. *)
Lemma page_rank_ref_mass G (m : Qc) (n : Z) :
  wf_graph G -> G <> [] ->
  exists x, page_rank_ref G m n = Ok x /\ sum_scores (values x) = 1%Qc.
Proof.
  intros Hwf Hne. unfold page_rank_ref.
  rewrite init_Ok, truediv_Ok by by apply len_nonzero. cbn [bind].
  destruct (iterate_ref_mass (Z.to_nat n) G m (x_0 G) Hwf Hne)
    as (x & Hx & Hmass).
  - unfold x_0, keys. rewrite map_map. apply map_id.
  - by apply x_0_mass.
  - unfold x_0 in Hx. rewrite Hx. cbn [bind]. eexists. split; [done|].
    unfold values in *. by rewrite (sum_scores_perm _ _ (sorted_desc_values _ _)).
Qed.

(** X8: on a well-formed graph without forward edges the scores that
    [page_rank] returns sum to exactly 1 in exact arithmetic, for every
    [m] and every [n]. *)
Theorem page_rank_mass_without_forward_edges (G : DiGraph) (m : Qc) (n : Z) :
  wf_graph G -> G <> [] -> edges_point_back [] G = true ->
  exists x, page_rank G m n = Ok x /\ sum_scores (values x) = 1%Qc.
Proof.
  intros Hwf Hne Hback. unfold page_rank, page_rank_scores.
  rewrite init_Ok, truediv_Ok by by apply len_nonzero. cbn [bind].
  assert (Hk : keys (x_0 (R:=Qc) G) = nodes G)
    by (unfold x_0, keys; rewrite map_map; apply map_id).
  fold (x_0 (R:=Qc) G).
  rewrite iterate_as_ref; [|apply Hwf|done|done].
  destruct (iterate_ref_mass (Z.to_nat n) G m (x_0 G) Hwf Hne Hk
              (x_0_mass G Hne)) as (x & -> & Hmass).
  cbn [bind]. eexists. split; [done|].
  unfold values in *. by rewrite (sum_scores_perm _ _ (sorted_desc_values _ _)).
Qed.

Lemma page_rank_mass_without_forward_edges_witness :
  exists x, page_rank G_back (Q2Qc (3 # 20)) 100 = Ok x
            /\ sum_scores (values x) = 1%Qc.
Proof.
  apply (page_rank_mass_without_forward_edges G_back (Q2Qc (3 # 20)) 100).
  - apply (bool_decide_unpack _). vm_compute. exact I.
  - discriminate.
  - vm_compute. reflexivity.
Defined.

(** ** What a pass keeps *)

Section PassInvariant.
Context {R : Type} `{Num R}.
Variables (I J : R -> Prop).
Variables (G G_reverse : DiGraph) (m D S_ : R).
Hypothesis J_I : forall v, J v -> I v.
Hypothesis update_node_J :
  forall (x : dict R) node x',
    Forall I (values x) -> update_node G G_reverse m D S_ x node = Ok x' ->
    exists v, x' = setitem x node v /\ J v.

(** When every score satisfies [I] before the pass and every stored score
    satisfies [J], every score satisfies [J] after the pass. *)
Lemma update_pass_invariant :
  forall (rest done_ x' : dict R),
    NoDup (keys (done_ ++ rest)) ->
    Forall I (values (done_ ++ rest)) -> Forall J (values done_) ->
    update_pass G G_reverse m D S_ (keys rest) (done_ ++ rest) = Ok x' ->
    Forall J (values x') /\ keys x' = keys (done_ ++ rest).
Proof.
  induction rest as [|[v old] rest IH]; intros done_ x' Hnd HI HJ Hp.
  - simpl in Hp. injection Hp as <-. by rewrite app_nil_r.
  - cbn [keys map fst update_pass] in Hp. inv_bind Hp.
    destruct (update_node_J _ _ _ HI Ha) as (val & -> & Hval).
    assert (Hfresh : v ∉ keys done_).
    { intros Hin. unfold keys in Hnd. rewrite map_app in Hnd.
      apply NoDup_app in Hnd as (_ & Hdisj & _). apply (Hdisj v Hin). left. }
    rewrite setitem_app_fresh in Hp by done.
    replace (done_ ++ (v, val) :: rest) with ((done_ ++ [(v, val)]) ++ rest)
      in Hp by by rewrite <- app_assoc.
    unfold values, keys in *. rewrite !map_app in *. simpl in *.
    apply Forall_app in HI as [HId HIr]. apply Forall_cons in HIr as [_ HIr].
    apply IH in Hp.
    + destruct Hp as [HJ' ->]. split; [done|].
      rewrite !map_app. simpl. by rewrite <- app_assoc.
    + rewrite !map_app. simpl. by rewrite <- app_assoc.
    + rewrite !map_app. simpl. rewrite !Forall_app, Forall_singleton. auto.
    + rewrite map_app. simpl. rewrite Forall_app, Forall_singleton. auto.
Qed.
End PassInvariant.

Lemma sorted_desc_constant {K V} (ltb : V -> V -> bool) (c : V)
    (l : list (K * V)) :
  ltb c c = false -> Forall (fun q => snd q = c) l -> sorted_desc ltb l = l.
Proof.
  intros Hc. induction 1 as [|p l Hp Hl IH]; [done|].
  simpl. rewrite IH. destruct l as [|q l]; [done|].
  simpl. apply Forall_cons in Hl as [Hq _]. by rewrite Hp, Hq, Hc.
Qed.

Lemma dict_constant {V} (x : dict V) (c : V) :
  Forall (fun v => v = c) (values x) -> x = map (fun k => (k, c)) (keys x).
Proof.
  unfold values, keys. induction x as [|[k v] x IH]; simpl; [done|].
  intros [-> Hx]%Forall_cons. f_equal. by apply IH.
Qed.

(** ** Pure teleport: m = 1 *)

Lemma iterate_teleport k G (x : dict Qc) x' :
  NoDup (keys x) ->
  Forall (fun v => v = ndiv (nmul 1%Qc (of_int 1)) (of_int (len G))) (values x) ->
  iterate k G (reverse G) (find_dangling_nodes G) (len G) 1%Qc
    (ndiv (nmul 1%Qc (of_int 1)) (of_int (len G))) x = Ok x' ->
  x' = x.
Proof.
  revert x. induction k as [|k IH]; intros x Hnd Hx Hi.
  - simpl in Hi. by injection Hi as <-.
  - cbn [iterate] in Hi. inv_bind Hi. unfold iteration in Ha. inv_bind Ha.
    apply (update_pass_invariant (fun _ => True)
             (fun v => v = ndiv (nmul 1%Qc (of_int 1)) (of_int (len G)))
             _ _ _ _ _ ltac:(done)) with (done_ := []) in Ha.
    + destruct Ha as [HJ Hk]. simpl in Hk.
      assert (a = x) as ->.
      { rewrite (dict_constant a _ HJ), (dict_constant x _ Hx). by rewrite Hk. }
      by apply IH.
    + intros y node y' _ Hy. unfold update_node in Hy. inv_bind Hy.
      injection Hy as <-. eexists. split; [done|]. qc_norm. ring.
    + done.
    + by apply Forall_forall.
    + done.
Qed.

(** X5: with m = 1 (always teleport) every pass stores 1/size for every
    node: on a graph with at least one node [page_rank] returns the
    starting vector, in node order, for every [n]. *)
Theorem page_rank_pure_teleport (G : DiGraph) (n : Z) :
  NoDup (nodes G) -> G <> [] -> page_rank G 1%Qc n = Ok (x_0 G).
Proof.
  intros Hnd Hne.
  destruct (page_rank_total G 1%Qc n Hnd Hne) as [r Hr]. rewrite Hr.
  unfold page_rank, page_rank_scores in Hr.
  rewrite init_Ok, truediv_Ok in Hr by by apply len_nonzero.
  cbn [bind] in Hr. inv_bind Hr. injection Hr as <-.
  fold (x_0 (R:=Qc) G) in Ha.
  assert (HS : ndiv (nmul 1%Qc (of_int 1)) (of_int (len G))
               = ndiv (of_int 1) (of_int (len G)))
    by (qc_norm; by rewrite Qcmult_1_l).
  apply iterate_teleport in Ha as ->.
  - f_equal. apply (sorted_desc_constant _ (ndiv (of_int 1) (of_int (len G)))).
    + apply Qc_nlt_irrefl.
    + unfold x_0. apply Forall_forall.
      intros q [v [-> _]]%list_elem_of_fmap. done.
  - unfold x_0, keys. rewrite map_map. simpl. by rewrite map_id.
  - unfold x_0, values. rewrite map_map. simpl. apply Forall_forall.
    intros q [v [-> _]]%list_elem_of_fmap. exact (eq_sym HS).
Qed.

Lemma page_rank_pure_teleport_witness :
  page_rank G_cycle_1_2 1%Qc 100 = Ok (x_0 G_cycle_1_2).
Proof.
  apply (page_rank_pure_teleport G_cycle_1_2 100).
  - apply (bool_decide_unpack _). vm_compute. exact I.
  - discriminate.
Defined.

(** ** A floor under the scores *)

Lemma of_int_Qc_nonneg (d : Z) : 0 <= d -> (0 <= of_int d)%Qc.
Proof.
  intros Hd. unfold Qcle. simpl. rewrite (Qred_correct (inject_Z d)).
  unfold Qle. simpl. lia.
Qed.

Lemma Qcinv_nonneg (a : Qc) : (0 <= a)%Qc -> (0 <= / a)%Qc.
Proof.
  intros Ha. apply Qcle_lt_or_eq in Ha as [Ha| <-].
  - by apply Qclt_le_weak, Qcinv_pos.
  - done.
Qed.

Lemma Qcdiv_nonneg (a b : Qc) : (0 <= a)%Qc -> (0 <= b)%Qc -> (0 <= a / b)%Qc.
Proof.
  intros Ha Hb. unfold Qcdiv. apply Qcmult_nonneg_nonneg; [done|].
  by apply Qcinv_nonneg.
Qed.

Lemma backlink_scores_nonneg G backlinks (scores : list Qc) :
  backlink_scores G backlinks = Ok scores ->
  Forall (fun s => (0 <= s)%Qc) scores.
Proof.
  unfold backlink_scores. revert scores.
  induction backlinks as [|b bl IH]; intros scores Hsc.
  - simpl in Hsc. by injection Hsc as <-.
  - cbn [comprehension] in Hsc. inv_bind Hsc. injection Hsc as <-.
    constructor; [|by apply IH].
    inv_bind Ha. unfold truediv in Ha.
    destruct (Z.of_nat (length a1) =? 0); [done|]. injection Ha as <-.
    apply Qcdiv_nonneg; [done|]. apply of_int_Qc_nonneg. lia.
Qed.

Lemma accumulate_nonneg (x : dict Qc) (scores : list Qc) backlinks i
    (A A' : Qc) :
  Forall (fun v => (0 <= v)%Qc) (values x) ->
  Forall (fun s => (0 <= s)%Qc) scores -> (0 <= A)%Qc ->
  accumulate x scores backlinks i A = Ok A' -> (0 <= A')%Qc.
Proof.
  intros Hx Hsc. revert i A.
  induction backlinks as [|b bl IH]; intros i A HA Hacc.
  - simpl in Hacc. by injection Hacc as <-.
  - cbn [accumulate] in Hacc.
    destruct (scores !! i) as [s|] eqn:Hs; [|done]. inv_bind Hacc.
    apply IH in Hacc; [done|].
    apply Qcplus_nonneg_nonneg; [done|]. apply Qcmult_nonneg_nonneg.
    + rewrite Forall_forall in Hsc. apply Hsc.
      by eapply list_elem_of_lookup_2.
    + by eapply (getitem_Forall (fun v => (0 <= v)%Qc)).
Qed.

Lemma sum_dangling_nonneg (x : dict Qc) (size : Z) dn (acc s : Qc) :
  0 <= size -> Forall (fun v => (0 <= v)%Qc) (values x) -> (0 <= acc)%Qc ->
  sum_dangling x size dn acc = Ok s -> (0 <= s)%Qc.
Proof.
  intros Hsize Hx. revert acc. induction dn as [|d dn IH]; intros acc Hacc Hs.
  - simpl in Hs. by injection Hs as <-.
  - cbn [sum_dangling] in Hs. inv_bind Hs. apply IH in Hs; [done|].
    unfold truediv in Ha0. destruct (size =? 0); [done|]. injection Ha0 as <-.
    apply Qcplus_nonneg_nonneg; [done|]. apply Qcdiv_nonneg.
    + by eapply (getitem_Forall (fun v => (0 <= v)%Qc)).
    + by apply of_int_Qc_nonneg.
Qed.

Lemma iteration_floor G (m S_ : Qc) (x x' : dict Qc) :
  (0 <= m)%Qc -> (m <= 1)%Qc -> (0 <= S_)%Qc -> NoDup (keys x) ->
  Forall (fun v => (0 <= v)%Qc) (values x) ->
  iteration G (reverse G) (find_dangling_nodes G) (len G) m S_ x = Ok x' ->
  Forall (fun v => (S_ <= v)%Qc) (values x') /\ keys x' = keys x.
Proof.
  intros Hm0 Hm1 HS Hnd Hx Hi. unfold iteration in Hi. inv_bind Hi.
  assert (H1m : (0 <= 1 - m)%Qc).
  { apply (Qcplus_le_mono_r _ _ m). by replace (1 - m + m)%Qc with 1%Qc by ring;
      replace (0 + m)%Qc with m by ring. }
  assert (HD : (0 <= nmul (nsub (of_int 1) m) a)%Qc).
  { qc_norm. apply Qcmult_nonneg_nonneg; [done|].
    eapply (sum_dangling_nonneg x (len G)); [unfold len; lia|done| |done].
    done. }
  apply (update_pass_invariant (fun v => (0 <= v)%Qc) (fun v => (S_ <= v)%Qc))
    with (done_ := []) in Hi; [done| | |done|done|done].
  - intros v Hv. eapply Qcle_trans; [exact HS|exact Hv].
  - intros y node y' Hy Hu. unfold update_node in Hu. inv_bind Hu.
    injection Hu as <-. eexists. split; [done|].
    assert (HA : (0 <= a2)%Qc).
    { eapply (accumulate_nonneg y a1); [done| | |done].
      - by eapply backlink_scores_nonneg.
      - done. }
    qc_norm.
    replace S_ with (0 + S_)%Qc at 1 by ring.
    apply Qcplus_le_mono_r. apply Qcplus_nonneg_nonneg; [|exact HD].
    by apply Qcmult_nonneg_nonneg.
Qed.

(** X6: for m in [0, 1] and at least one pass, every score that
    [page_rank] returns is at least the teleport share m/size, and so is
    not negative, also though the pass is in place. *)
Theorem page_rank_score_floor (G : DiGraph) (m : Qc) (n : Z) (x : dict Qc) :
  (0 <= m)%Qc -> (m <= 1)%Qc -> 1 <= n -> NoDup (nodes G) ->
  page_rank G m n = Ok x ->
  forall k v, (k, v) ∈ x -> (m / of_int (len G) <= v)%Qc /\ (0 <= v)%Qc.
Proof.
  intros Hm0 Hm1 Hn Hnd Hp k v Hin.
  unfold page_rank in Hp. apply bind_Ok in Hp as (xn & Hxn & Hp).
  injection Hp as <-. rewrite sorted_desc_perm in Hin.
  unfold page_rank_scores in Hxn.
  apply bind_Ok in Hxn as (x0 & Hx0 & Hxn).
  apply bind_Ok in Hxn as (S_ & HS_ & Hxn).
  assert (Hlen : len G <> 0).
  { intros H0. rewrite H0 in HS_. done. }
  rewrite truediv_Ok in HS_ by done. injection HS_ as HS_.
  rewrite init_Ok in Hx0 by done. injection Hx0 as <-.
  assert (HS : S_ = (m / of_int (len G))%Qc)
    by (rewrite <- HS_; qc_norm; by rewrite Qcmult_1_r).
  assert (HS0 : (0 <= S_)%Qc).
  { rewrite HS. apply Qcdiv_nonneg; [done|].
    apply of_int_Qc_nonneg. unfold len. lia. }
  assert (Hgen : forall j (y y' : dict Qc),
             NoDup (keys y) -> Forall (fun v => (S_ <= v)%Qc) (values y) ->
             iterate j G (reverse G) (find_dangling_nodes G) (len G) m S_ y
             = Ok y' ->
             Forall (fun v => (S_ <= v)%Qc) (values y')).
  { induction j as [|j IH]; intros y y' Hy HyS Hit.
    - simpl in Hit. by injection Hit as <-.
    - cbn [iterate] in Hit. apply bind_Ok in Hit as (y1 & Hy1 & Hit).
      apply iteration_floor in Hy1 as [HJ Hk]; [|done..|].
      + apply (IH y1); [by rewrite Hk|done|done].
      + eapply Forall_impl; [exact HyS|]. intros w Hw.
        eapply Qcle_trans; [exact HS0|exact Hw]. }
  destruct (Z.to_nat n) as [|j] eqn:Hj; [lia|].
  cbn [iterate] in Hxn. apply bind_Ok in Hxn as (x1 & Hx1 & Hxn).
  assert (Hk0 : forall c : Qc,
             keys (map (fun n0 : node => (n0, c)) (nodes G)) = nodes G)
    by (intros; unfold keys; rewrite map_map; apply map_id).
  apply iteration_floor in Hx1 as [HJ Hk]; [|done|done|done|by rewrite Hk0|].
  - apply Hgen in Hxn; [|by rewrite Hk, Hk0|done].
    rewrite Forall_forall in Hxn.
    assert (Hv : (S_ <= v)%Qc)
      by (apply Hxn; by apply (list_elem_of_fmap_2 snd) in Hin).
    rewrite <- HS. split; [done|]. eapply Qcle_trans; [exact HS0|exact Hv].
  - unfold values. rewrite map_map. simpl. apply Forall_forall.
    intros w [u [-> _]]%list_elem_of_fmap.
    apply Qcdiv_nonneg; [done|]. apply of_int_Qc_nonneg. unfold len. lia.
Qed.

Lemma page_rank_score_floor_witness :
  (Q2Qc (1 # 2) / of_int (len G_1_2) <= Q2Qc (3 # 8))%Qc
  /\ (0 <= Q2Qc (3 # 8))%Qc.
Proof.
  assert (Hrun : exists x, page_rank G_1_2 (Q2Qc (1 # 2)) 1 = Ok x
                           /\ (1, Q2Qc (3 # 8)) ∈ x).
  { destruct (page_rank G_1_2 (Q2Qc (1 # 2)) 1) as [x|e] eqn:E;
      [|by vm_compute in E].
    exists x. split; [done|].
    assert (Hx : fractions (Ok x) = Ok [(2, 9 # 16); (1, 3 # 8)])
      by (rewrite <- E; vm_compute; reflexivity).
    clear E. destruct x as [|[k1 v1] [|[k2 v2] [|]]];
      simpl in Hx; try discriminate Hx.
    injection Hx as Hk1 Hv1 Hk2 Hv2. subst k1 k2.
    right. replace v2 with (Q2Qc (3 # 8)) by by apply Qc_eq_this. left. }
  destruct Hrun as (x & Hx & Hin).
  apply (page_rank_score_floor G_1_2 (Q2Qc (1 # 2)) 1 x) with (k := 1);
    [done|done|lia| |exact Hx|exact Hin].
  apply (bool_decide_unpack _). vm_compute. exact I.
Defined.

(** ** The reports *)

Lemma getitem_elem {V} (d : dict V) k v :
  NoDup (keys d) -> (k, v) ∈ d -> getitem d k = Ok v.
Proof.
  unfold keys. induction d as [|[k' v'] d IH]; simpl; intros Hnd Hin.
  - by apply elem_of_nil in Hin.
  - apply NoDup_cons in Hnd as [Hk Hnd].
    apply elem_of_cons in Hin as [[= <- <-]|Hin].
    + by rewrite Z.eqb_refl.
    + destruct (Z.eqb_spec k' k) as [->|_]; [|by apply IH].
      exfalso. apply Hk. by apply (list_elem_of_fmap_2 fst) in Hin.
Qed.

Section ReportFacts.
Context {R : Type} `{Num R} `{ZeroTest R} `{BigInt R}.
Implicit Types (x : dict (pynum R)) (row : node -> result (list (cell R))).

Lemma py_sum_counts_from (l : list Z) (a : Z) :
  py_sum_from (map (fun c => PInt (R:=R) c) l) (PInt a)
  = Ok (PInt (fold_left Z.add l a)).
Proof. revert a. induction l as [|c l IH]; intros a; simpl; [done|apply IH]. Qed.

Lemma py_sum_counts (visited : dict Z) :
  py_sum (values (counts (R:=R) visited))
  = Ok (PInt (sum_counts (values visited))).
Proof.
  unfold py_sum, counts, values, sum_counts. rewrite map_map. simpl.
  rewrite <- py_sum_counts_from. by rewrite map_map.
Qed.


Lemma print_lines_all row (f : node -> list (cell R)) n todo i shown :
  (forall k, k ∈ todo -> row k = Ok (f k)) -> n < Z.of_nat i ->
  print_lines row n todo i shown = (shown ++ map f todo, None).
Proof.
  revert i shown. induction todo as [|k todo IH]; intros i shown Hrow Hn; simpl.
  - by rewrite app_nil_r.
  - destruct (Z.eqb_spec (Z.of_nat i) n); [lia|].
    rewrite (Hrow k) by left.
    rewrite IH by (try lia; intros; apply Hrow; by right).
    by rewrite <- app_assoc.
Qed.

Lemma print_lines_take row (f : node -> list (cell R)) n todo i shown :
  (forall k, k ∈ todo -> row k = Ok (f k)) -> Z.of_nat i <= n ->
  print_lines row n todo i shown
  = (shown ++ map f (take (Z.to_nat (n - Z.of_nat i)) todo), None).
Proof.
  revert i shown. induction todo as [|k todo IH]; intros i shown Hrow Hn; simpl.
  - by rewrite take_nil, app_nil_r.
  - destruct (Z.eqb_spec (Z.of_nat i) n) as [<-|Hne].
    + rewrite Z.sub_diag. simpl. by rewrite app_nil_r.
    + rewrite (Hrow k) by left.
      rewrite IH by (try lia; intros; apply Hrow; by right).
      replace (Z.to_nat (n - Z.of_nat i))
        with (S (Z.to_nat (n - Z.of_nat (S i)))) by lia.
      simpl. by rewrite <- app_assoc.
Qed.

Lemma getitem_counts (visited : dict Z) k c :
  getitem visited k = Ok c -> getitem (counts (R:=R) visited) k = Ok (PInt c).
Proof.
  unfold counts. induction visited as [|[k' c'] d IH]; simpl; [done|].
  destruct (Z.eqb k' k); [by intros [= ->]|done].
Qed.

Lemma getitem_floats (x : dict R) k v :
  getitem x k = Ok v -> getitem (floats x) k = Ok (PFloat v).
Proof.
  unfold floats. induction x as [|[k' v'] d IH]; simpl; [done|].
  destruct (Z.eqb k' k); [by intros [= ->]|done].
Qed.

Lemma keys_counts (visited : dict Z) : keys (counts (R:=R) visited) = keys visited.
Proof. unfold counts, keys. by rewrite map_map. Qed.

Lemma keys_floats (x : dict R) : keys (floats x) = keys x.
Proof. unfold floats, keys. by rewrite map_map. Qed.

(** The rows over the keys are the rows over the entries. *)
Lemma map_keys_entries {V A} (d : dict V) (g : node -> A) (h : node * V -> A) :
  (forall k v, (k, v) ∈ d -> g k = h (k, v)) -> map g (keys d) = map h d.
Proof.
  intros Hgh. unfold keys. rewrite map_map. apply map_ext_in.
  intros [k v] Hin. apply Hgh. by apply list_elem_of_In.
Qed.
End ReportFacts.

(** X9: for a type that is neither 'surfer' nor 'pagerank' both reports
    only print the hint: no file is opened, no line of the dictionary is
    shown and nothing is raised, whatever the dictionary holds. *)
Theorem reports_unknown_type {R : Type} `{Num R} `{ZeroTest R} `{BigInt R}
    (round : pynum R -> Z -> pynum R) (x : dict (pynum R))
    (filename type : string) (n : Z) :
  type <> "surfer"%string -> type <> "pagerank"%string ->
  write_to_csv x filename type
  = {| file := None;
       printed := [[CStr "Please specify a valid type."]];
       raised := None |}
  /\ summary round x type n
     = {| file := None;
          printed := [[CStr "Please specify a valid type."]];
          raised := None |}.
Proof.
  intros Hs Hp. unfold write_to_csv, summary.
  apply String.eqb_neq in Hs, Hp. by rewrite Hs, Hp.
Qed.

Lemma reports_unknown_type_witness :
  raised (write_to_csv (R:=float) (counts [(0, 3); (1, 2)]) "tiny" "Surfer")
  = None.
Proof.
  pose proof (reports_unknown_type (R:=float) (fun a _ => a)
                (counts [(0, 3); (1, 2)]) "tiny" "Surfer" 10
                ltac:(discriminate) ltac:(discriminate)) as [Hw _].
  by rewrite Hw.
Defined.





Lemma NoDup_keys_perm {V} (d : dict V) (ns : list node) :
  keys d ≡ₚ ns -> NoDup ns -> NoDup (keys d).
Proof. intros Hp Hnd. by rewrite Hp. Qed.

(** The counters of a returned dictionary, for the divisions below. *)
Lemma counters_in_range {R : Type} `{Num R}
    (G : DiGraph) (n : Z) (m : R) (t : rng) (visited : dict Z) k c :
  random_surfer G n m t = Ok visited -> getitem visited k = Ok c ->
  0 <= c <= Z.max 0 n.
Proof.
  intros Hr Hc.
  pose proof (random_surfer_keys_sum G n m t visited Hr) as [_ Hsum].
  unfold random_surfer in Hr. apply bind_Ok in Hr as (nt & _ & Hr).
  apply bind_Ok in Hr as (v1 & Hv1 & Hr). injection Hr as <-.
  apply surf_nonneg in Hv1.
  - assert (Hpos : Forall (fun c => 0 <= c) (values (sorted_desc Z.ltb v1))).
    { unfold values in *. by rewrite sorted_desc_values. }
    assert (Hin : c ∈ values (sorted_desc Z.ltb v1)).
    { clear Hsum Hpos. revert Hc. unfold values.
      induction (sorted_desc Z.ltb v1) as [|[k' c'] d IH]; simpl; [done|].
      destruct (Z.eqb k' k); [intros [= ->]; left|intros; right; auto]. }
    pose proof (sum_counts_bound _ c Hpos Hin). lia.
  - unfold values. rewrite map_map. simpl.
    apply Forall_forall. intros x [y [-> _]]%list_elem_of_fmap. done.
Qed.

Lemma py_truediv_counter {R : Type} `{Num R} `{ZeroTest R} `{BigInt R}
    (c n : Z) :
  0 <= c <= n -> 1 <= n <= 2 ^ 53 ->
  py_truediv (PInt c) (PInt n) = Ok (PFloat (ndiv (of_int c) (of_int n))).
Proof.
  intros Hc Hn. unfold py_truediv, small_int.
  destruct (Z.eqb_spec n 0); [lia|].
  destruct (Z.leb_spec (Z.abs c) (2 ^ 53)); [|lia].
  destruct (Z.leb_spec (Z.abs n) (2 ^ 53)); [|lia]. done.
Qed.



Lemma sum_of_int_counts (l : list Z) :
  sum_scores (map (fun c => of_int c : Qc) l) = of_int (sum_counts l).
Proof.
  induction l as [|c l IH]; [done|].
  cbn [map]. by rewrite sum_scores_cons, sum_counts_cons, of_int_Qc_add, IH.
Qed.

(** X12: in exact arithmetic the shares counter / n of the dictionary
    that [random_surfer] returns after [n >= 1] steps (the third column of
    the surfer csv) sum to 1, and the percentages to 100. *)
Theorem random_surfer_shares (G : DiGraph) (n : Z) (m : Qc) (t : rng)
    (visited : dict Z) :
  1 <= n -> random_surfer G n m t = Ok visited ->
  sum_scores (map (fun p => ndiv (of_int (snd p)) (of_int n)) visited) = 1%Qc
  /\ sum_scores (map (fun p => nmul (ndiv (of_int (snd p)) (of_int n))
                                 (of_int 100)) visited)
     = (of_int 100 : Qc).
Proof.
  intros Hn Hr.
  pose proof (random_surfer_keys_sum G n m t visited Hr) as [_ Hsum].
  assert (Hn0 : of_int n <> 0%Qc) by (apply of_int_Qc_nonzero; lia).
  assert (Hshares :
            sum_scores (map (fun p : node * Z => (of_int (snd p) / of_int n)%Qc)
                          visited) = 1%Qc).
  { rewrite (sum_map_ext _ (fun p : node * Z => (/ of_int n * of_int (snd p))%Qc))
      by (intros; unfold Qcdiv; ring).
    rewrite sum_map_mul.
    rewrite <- (map_map snd (fun c => of_int c : Qc)), sum_of_int_counts.
    fold (values visited). rewrite Hsum.
    replace (Z.of_nat (Z.to_nat n)) with n by lia. by field. }
  split; [exact Hshares|].
  rewrite (sum_map_ext _
             (fun p : node * Z => (of_int 100 * (of_int (snd p) / of_int n))%Qc))
    by (intros; qc_norm; ring).
  rewrite sum_map_mul, Hshares. ring.
Qed.

Lemma random_surfer_shares_witness :
  sum_scores (map (fun p => ndiv (of_int (snd p)) (of_int 5)) [(0, 3); (1, 2)])
  = 1%Qc.
Proof.
  assert (Hrun : random_surfer G_cycle_0_1 5 (Q2Qc (1 # 2))
                   (fun i => 2 ^ 52 + Z.of_nat i) = Ok [(0, 3); (1, 2)])
    by (vm_compute; reflexivity).
  exact (proj1 (random_surfer_shares G_cycle_0_1 5 (Q2Qc (1 # 2))
                  (fun i => 2 ^ 52 + Z.of_nat i) [(0, 3); (1, 2)]
                  ltac:(lia) Hrun)).
Defined.

Section PagerankReports.
Context {R : Type} `{Num R} `{ZeroTest R} `{BigInt R}.


Lemma pagerank_line_entry (round : pynum R -> Z -> pynum R) (x : dict R) k v :
  getitem x k = Ok v ->
  pagerank_line (floats x) k
  = Ok [CNum (PInt k); CStr tabs; CNum (PFloat v); CStr " (";
        CNum (PFloat (nmul v (of_int 100))); CStr "%)"].
Proof.
  intros Hv. unfold pagerank_line.
  by rewrite (getitem_floats x k v Hv).
Qed.
End PagerankReports.



(** X14: for the dictionary that [page_rank] returns on a graph with
    unique node keys, [summary] of type 'pagerank' raises nothing and
    prints the three header lines and then one line for each of the first
    [shown] entries of the dictionary when [shown >= 0] (all of them when
    there are fewer), and for every entry when [shown] is negative. *)
Theorem summary_after_page_rank {R : Type} `{Num R} `{ZeroTest R} `{BigInt R}
    (round : pynum R -> Z -> pynum R)
    (G : DiGraph) (m : R) (n : Z) (x : dict R) (shown : Z) :
  NoDup (nodes G) -> page_rank G m n = Ok x ->
  summary round (floats x) "pagerank" shown
  = {| file := None;
       printed :=
         [[CStr "SUMMARY: Pagerank"];
          [CStr "---------------------------"];
          [CStr ("Ranked Nodes" ++ String (Ascii.ascii_of_nat 9)
                   "Importance Score")%string]]
         ++ map (fun p =>
                   [CNum (PInt (fst p)); CStr tabs; CNum (PFloat (snd p));
                    CStr " ("; CNum (PFloat (nmul (snd p) (of_int 100)));
                    CStr "%)"])
              (if Z.ltb shown 0 then x else take (Z.to_nat shown) x);
       raised := None |}.
Proof.
  intros Hnd Hp.
  pose proof (proj2 (keys_of_results G m n) x Hp) as Hk.
  assert (Hndk : NoDup (keys x)) by by eapply NoDup_keys_perm.
  unfold summary. simpl String.eqb. cbv iota. rewrite keys_floats.
  set (line := fun k => match getitem x k with
                        | Ok v => [CNum (PInt k); CStr tabs; CNum (PFloat v);
                                   CStr " (";
                                   CNum (PFloat (nmul v (of_int 100)));
                                   CStr "%)"]
                        | Raise _ => []
                        end).
  assert (Hline : forall k, k ∈ keys x -> pagerank_line (floats x) k = Ok (line k)).
  { intros k Hin. destruct (getitem_total x k Hin) as [v Hv].
    unfold line. by rewrite (pagerank_line_entry round x k v Hv), Hv. }
  assert (Hmap : forall d : dict R,
             (forall k v, (k, v) ∈ d -> (k, v) ∈ x) ->
             map line (keys d)
             = map (fun p => [CNum (PInt (fst p)); CStr tabs;
                              CNum (PFloat (snd p)); CStr " (";
                              CNum (PFloat (nmul (snd p) (of_int 100)));
                              CStr "%)"]) d).
  { intros d Hd. apply map_keys_entries. intros k v Hin.
    unfold line. by rewrite (getitem_elem x k v Hndk (Hd k v Hin)). }
  destruct (Z.ltb_spec shown 0) as [Hneg|Hpos].
  - rewrite (print_lines_all _ line) by (try done; simpl; lia).
    by rewrite (Hmap x).
  - rewrite (print_lines_take _ line) by (try done; simpl; lia).
    simpl Z.of_nat. rewrite Z.sub_0_r.
    replace (take (Z.to_nat shown) (keys x))
      with (keys (take (Z.to_nat shown) x))
      by (unfold keys; apply fmap_take).
    rewrite (Hmap (take (Z.to_nat shown) x)); [done|].
    intros k v Hin. by apply (subseteq_take (Z.to_nat shown) x).
Qed.

Lemma summary_after_page_rank_witness :
  length (printed (summary (fun a _ => a)
                     (floats [(2, 0.5625%float); (1, 0.375%float)])
                     "pagerank" 1)) = 4%nat.
Proof.
  assert (Hnd : NoDup (nodes G_1_2))
    by (apply (bool_decide_unpack _); vm_compute; exact I).
  assert (Hrun : page_rank G_1_2 0.5%float 1
                 = Ok [(2, 0.5625%float); (1, 0.375%float)])
    by (vm_compute; reflexivity).
  rewrite (summary_after_page_rank (fun a _ => a) G_1_2 0.5%float 1
             [(2, 0.5625%float); (1, 0.375%float)] 1 Hnd Hrun).
  reflexivity.
Defined.

Section SurferSummary.
Context {R : Type} `{Num R} `{ZeroTest R} `{BigInt R}.
Variable round : pynum R -> Z -> pynum R.

Lemma surfer_line_entry (visited : dict Z) (total : Z) k c :
  0 <= c <= total -> 1 <= total <= 2 ^ 53 -> getitem visited k = Ok c ->
  surfer_line round (counts visited) (PInt total) k
  = Ok [CNum (PInt k); CStr tabs; CNum (PInt c); CStr tabs;
        CNum (round (PFloat (ndiv (of_int c) (of_int total))) 5);
        CStr " (";
        CNum (round (PFloat (nmul (ndiv (of_int c) (of_int total))
                               (of_int 100))) 3);
        CStr "%)"].
Proof.
  intros Hrange Ht Hc. unfold surfer_line.
  rewrite (getitem_counts visited k c Hc). cbn [bind].
  rewrite py_truediv_counter by done. reflexivity.
Qed.
End SurferSummary.

(** X15: for the dictionary that [random_surfer] returns after [n] steps,
    1 <= n <= 2^53, on a graph with unique node keys, [summary] of type
    'surfer' raises nothing; it prints the header with the total [n] and
    then, for each of the first [shown] entries ([shown >= 0]; every entry
    when [shown < 0]), the node, its counter, and the rounded share
    counter / n and percentage.  (Up to 2^53 the counters and [n] are
    converted exactly, so counter / n is the one rounded division of
    Python.) *)
Theorem summary_after_random_surfer {R : Type} `{Num R} `{ZeroTest R} `{BigInt R}
    (round : pynum R -> Z -> pynum R)
    (G : DiGraph) (n : Z) (m : R) (t : rng) (visited : dict Z) (shown : Z) :
  NoDup (nodes G) -> 1 <= n <= 2 ^ 53 ->
  random_surfer G n m t = Ok visited ->
  summary round (counts visited) "surfer" shown
  = {| file := None;
       printed :=
         [[CStr "SUMMARY: Random Walk ("; CNum (PInt n); CStr " iterations)"];
          [CStr "---------------------------"];
          [CStr ("Ranked Nodes" ++ String (Ascii.ascii_of_nat 9) "#Visits"
                 ++ tabs ++ "Relative Importance Score")%string]]
         ++ map (fun p =>
                   [CNum (PInt (fst p)); CStr tabs; CNum (PInt (snd p));
                    CStr tabs;
                    CNum (round (PFloat (ndiv (of_int (snd p)) (of_int n))) 5);
                    CStr " (";
                    CNum (round (PFloat (nmul (ndiv (of_int (snd p)) (of_int n))
                                           (of_int 100))) 3);
                    CStr "%)"])
              (if Z.ltb shown 0 then visited else take (Z.to_nat shown) visited);
       raised := None |}.
Proof.
  intros Hnd Hn Hr.
  pose proof (random_surfer_keys_sum G n m t visited Hr) as [Hk Hsum].
  assert (Hndk : NoDup (keys visited)) by by eapply NoDup_keys_perm.
  unfold summary. simpl String.eqb. cbv iota.
  rewrite py_sum_counts, Hsum, keys_counts.
  replace (Z.of_nat (Z.to_nat n)) with n by lia.
  set (line := fun k =>
         match getitem visited k with
         | Ok c => [CNum (PInt k); CStr tabs; CNum (PInt c); CStr tabs;
                    CNum (round (PFloat (ndiv (of_int c) (of_int n))) 5);
                    CStr " (";
                    CNum (round (PFloat (nmul (ndiv (of_int c) (of_int n))
                                           (of_int 100))) 3);
                    CStr "%)"]
         | Raise _ => []
         end).
  assert (Hline : forall k, k ∈ keys visited ->
             surfer_line round (counts visited) (PInt n) k = Ok (line k)).
  { intros k Hin. destruct (getitem_total visited k Hin) as [c Hc].
    pose proof (counters_in_range G n m t visited k c Hr Hc) as Hrange.
    unfold line. rewrite (surfer_line_entry round visited n k c) by (done || lia).
    by rewrite Hc. }
  assert (Hmap : forall d : dict Z,
             (forall k c, (k, c) ∈ d -> (k, c) ∈ visited) ->
             map line (keys d)
             = map (fun p =>
                   [CNum (PInt (fst p)); CStr tabs; CNum (PInt (snd p));
                    CStr tabs;
                    CNum (round (PFloat (ndiv (of_int (snd p)) (of_int n))) 5);
                    CStr " (";
                    CNum (round (PFloat (nmul (ndiv (of_int (snd p)) (of_int n))
                                           (of_int 100))) 3);
                    CStr "%)"]) d).
  { intros d Hd. apply map_keys_entries. intros k c Hin.
    unfold line. by rewrite (getitem_elem visited k c Hndk (Hd k c Hin)). }
  destruct (Z.ltb_spec shown 0) as [Hneg|Hpos].
  - rewrite (print_lines_all _ line) by (try done; simpl; lia).
    by rewrite (Hmap visited).
  - rewrite (print_lines_take _ line) by (try done; simpl; lia).
    simpl Z.of_nat. rewrite Z.sub_0_r.
    replace (take (Z.to_nat shown) (keys visited))
      with (keys (take (Z.to_nat shown) visited))
      by (unfold keys; apply fmap_take).
    rewrite (Hmap (take (Z.to_nat shown) visited)); [done|].
    intros k c Hin. by apply (subseteq_take (Z.to_nat shown) visited).
Qed.

Lemma summary_after_random_surfer_witness :
  raised (summary (R:=float) (fun a _ => a) (counts [(0, 3); (1, 2)])
            "surfer" 10) = None.
Proof.
  assert (Hnd : NoDup (nodes G_cycle_0_1))
    by (apply (bool_decide_unpack _); vm_compute; exact I).
  assert (Hrun : random_surfer G_cycle_0_1 5 0.5%float
                   (fun i => 2 ^ 52 + Z.of_nat i) = Ok [(0, 3); (1, 2)])
    by (vm_compute; reflexivity).
  rewrite (summary_after_random_surfer (fun a _ => a) G_cycle_0_1 5 0.5%float
             (fun i => 2 ^ 52 + Z.of_nat i) [(0, 3); (1, 2)] 10
             Hnd ltac:(lia) Hrun).
  reflexivity.
Defined.

(** ** The ranked dictionaries *)

Lemma StronglySorted_take_drop {A} (P : A -> A -> Prop) (l : list A) :
  StronglySorted P l ->
  forall k p q, p ∈ take k l -> q ∈ drop k l -> P p q.
Proof.
  induction 1 as [|a l Hl IH Ha]; intros k p q Hp Hq.
  - rewrite take_nil in Hp. by apply elem_of_nil in Hp.
  - destruct k as [|k]; simpl in *; [by apply elem_of_nil in Hp|].
    apply elem_of_cons in Hp as [->|Hp]; [|by eapply IH].
    rewrite Forall_forall in Ha. apply Ha.
    by apply (subseteq_drop k l).
Qed.

(** X16: the dictionaries come back ranked: in the result of [page_rank]
    (exact arithmetic) and of [random_surfer] no entry among the first
    [k] has a smaller value than an entry after them, for every [k]; so
    the lines that [summary] shows are those of the highest values. *)
Theorem results_are_ranked (G : DiGraph) (m : Qc) (n : Z) (t : rng) (k : nat) :
  (forall x, page_rank G m n = Ok x ->
     forall p q, p ∈ take k x -> q ∈ drop k x -> (snd q <= snd p)%Qc)
  /\ (forall visited, random_surfer G n m t = Ok visited ->
        forall p q, p ∈ take k visited -> q ∈ drop k visited -> snd q <= snd p).
Proof.
  split.
  - intros x Hp. unfold page_rank in Hp.
    apply bind_Ok in Hp as (x1 & _ & Hp). injection Hp as <-.
    apply StronglySorted_take_drop.
    eapply StronglySorted_weaken;
      [|apply sorted_desc_sorted; [apply Qc_nlt_asym|apply Qc_nlt_negtrans]].
    intros p q. unfold not_below. apply Qc_nlt_false.
  - intros visited Hr. unfold random_surfer in Hr.
    apply bind_Ok in Hr as (nt & _ & Hr).
    apply bind_Ok in Hr as (v1 & _ & Hr). injection Hr as <-.
    apply StronglySorted_take_drop.
    eapply StronglySorted_weaken; [|apply sorted_desc_sorted; lia].
    intros p q. unfold not_below. lia.
Qed.

Lemma results_are_ranked_witness : 2 <= 3.
Proof.
  assert (Hrun : random_surfer G_cycle_0_1 5 (Q2Qc (1 # 2))
                   (fun i => 2 ^ 52 + Z.of_nat i) = Ok [(0, 3); (1, 2)])
    by (vm_compute; reflexivity).
  apply (proj2 (results_are_ranked G_cycle_0_1 (Q2Qc (1 # 2)) 5
                  (fun i => 2 ^ 52 + Z.of_nat i) 1) [(0, 3); (1, 2)] Hrun
           (0, 3) (1, 2)); simpl; left.
Defined.
